(** * Inversion sampling and importance sampling: a model of the notebooks

    The notebooks define [inversionSampling] and [importanceSampling] (the
    latter in a four-argument and a five-argument variant), a loop that
    estimates pi and the log-density [lnProb], all on top of NumPy.  The
    functions are embedded as programs of a small state and exception monad
    over
    - a heap of float arrays (every [ndarray] is a heap object, so that
      in-place updates such as [y1 /= y1[-1]] and aliasing are visible),
    - the global random generator, a stream of standard uniform draws
      together with the number of draws consumed so far.

    Numbers.  The programs are written once, over an interface [Arith] of
    float operations, and the interface has two instances:
    - [b64], IEEE 754 binary64 with round to nearest even, signed zeros,
      infinities and NaN: this is what NumPy computes, and what the
      statements about the code are about;
    - [exact], rationals with the IEEE special values, where no operation
      rounds or overflows: the arithmetic in which the mathematics behind
      the notebooks is stated.
    A statement that quantifies over the interface holds for both.

    The NumPy primitives the notebooks call ([cumsum], [interp], [argsort],
    [amin], [amax], [trapz], [sum], [dot], [random.uniform], broadcasting
    arithmetic) are modelled after their implementation on contiguous
    one-dimensional float64 arrays. *)

From Stdlib Require Import QArith Lqa Lia ZArith List Sorted Permutation.
From Stdlib Require Import Floats.SpecFloat.
From stdpp Require Import base list.

(** ** The arithmetic interface *)

Class Arith : Type := {
  num : Type;
  nan : num;
  (** [float(k)] for a Python integer [k]. *)
  of_Z : Z -> num;
  fneg : num -> num;
  fadd : num -> num -> num;
  fsub : num -> num -> num;
  fmul : num -> num -> num;
  fdiv : num -> num -> num;
  (** [v ** 2] on a NumPy scalar (the C library's [pow(v, 2.0)]). *)
  fsquare : num -> num;
  (** [a < b], [a <= b] and [a == b]. *)
  flt : num -> num -> bool;
  fle : num -> num -> bool;
  feqb : num -> num -> bool;
  isnan : num -> bool;
  isfinite : num -> bool
}.

(** ** Exceptions and results *)

Inductive exn : Type :=
  | ValueError
  | IndexError
  | OverflowError
  | Dangling.     (* a reference to no object: not reachable from Python *)

Inductive result (A : Type) : Type :=
  | Ok (a : A)
  | Raise (e : exn).

Arguments Ok {A} a.
Arguments Raise {A} e.

(** ** Array kernels (arrays are lists of floats) *)

Section Kernels.
Context {Ar : Arith}.

Definition ndarray : Type := list num.

(** [a[i]] for an index known to be in range. *)
Definition item (a : ndarray) (i : nat) : num := nth i a nan.

Definition itemZ (a : ndarray) (i : Z) : num := item a (Z.to_nat i).

(** [np.cumsum]: out[0] = a[0], out[i] = out[i-1] + a[i]. *)
Fixpoint cumsum_from (acc : num) (a : ndarray) : ndarray :=
  match a with
  | [] => []
  | v :: r => let s := fadd acc v in s :: cumsum_from s r
  end.

Definition cumsum (a : ndarray) : ndarray :=
  match a with
  | [] => []
  | v :: r => v :: cumsum_from v r
  end.

(** [a / d] for a scalar [d]. *)
Definition div_scalar (a : ndarray) (d : num) : ndarray :=
  map (fun v => fdiv v d) a.

(** [c * a] for a scalar [c]. *)
Definition mul_scalar (c : num) (a : ndarray) : ndarray :=
  map (fun v => fmul c v) a.

(** Elementwise binary operation with NumPy broadcasting in one dimension:
    equal lengths, or one operand of length 1 that is stretched; anything
    else does not broadcast. *)
Definition broadcast2 (op : num -> num -> num) (a b : ndarray)
    : option ndarray :=
  if Nat.eqb (length a) (length b) then
    Some (map (fun p => op (fst p) (snd p)) (combine a b))
  else
    match a, b with
    | [u], _ => Some (map (fun v => op u v) b)
    | _, [v] => Some (map (fun u => op u v) a)
    | _, _ => None
    end.

(** [np.diff]: out[i] = a[i+1] - a[i]. *)
Fixpoint diff (a : ndarray) : ndarray :=
  match a with
  | u :: ((v :: _) as r) => fsub v u :: diff r
  | _ => []
  end.

(** *** [a.sum()]

    NumPy adds a contiguous float array up pairwise.  Fewer than 8 items
    are added from the left, starting from 0.  Up to 128 items go to 8
    accumulators, item [i] to accumulator [i mod 8] while whole groups of 8
    remain; the accumulators are added as a balanced tree and the items
    left over are added to the result one by one.  A longer array is split
    after [n / 2] items, rounded down to a multiple of 8, and the sums of
    the two parts are added.  The reduction starts from the identity 0. *)

Definition add8 (r a : ndarray) : ndarray :=
  map (fun p => fadd (fst p) (snd p)) (combine r a).

Fixpoint blocks (k : nat) (r a : ndarray) : ndarray * ndarray :=
  match k with
  | O => (r, a)
  | S k' => blocks k' (add8 r (firstn 8 a)) (skipn 8 a)
  end.

Definition tree8 (r : ndarray) : num :=
  fadd (fadd (fadd (item r 0) (item r 1)) (fadd (item r 2) (item r 3)))
       (fadd (fadd (item r 4) (item r 5)) (fadd (item r 6) (item r 7))).

Definition block_sum (a : ndarray) : num :=
  let (r, rest) := blocks (length a / 8 - 1) (firstn 8 a) (skipn 8 a) in
  fold_left fadd rest (tree8 r).

Fixpoint pairwise_sum (fuel : nat) (a : ndarray) : num :=
  let n := length a in
  if (n <? 8)%nat then fold_left fadd a (of_Z 0)
  else if (n <=? 128)%nat then block_sum a
  else
    match fuel with
    | O => nan
    | S fuel' =>
        let n2 := (n / 2 - (n / 2) mod 8)%nat in
        fadd (pairwise_sum fuel' (firstn n2 a))
             (pairwise_sum fuel' (skipn n2 a))
    end.

Definition sum (a : ndarray) : num :=
  fadd (of_Z 0) (pairwise_sum (length a) a).

(** [np.trapz(y, x = x)] on one-dimensional arrays:
    [(d * (y[1:] + y[:-1]) / 2.0).sum()] with [d = diff(x)]. *)
Definition trapz (y x : ndarray) : option num :=
  let d := diff x in
  match broadcast2 fadd (tail y) (removelast y) with
  | None => None
  | Some ys =>
      match broadcast2 fmul d ys with
      | None => None
      | Some p => Some (sum (div_scalar p (of_Z 2)))
      end
  end.

(** [np.minimum] and [np.maximum]: [(a <= b || isnan(a)) ? a : b] and
    [(a >= b || isnan(a)) ? a : b]; both propagate NaN. *)
Definition fmin (a b : num) : num :=
  if fle a b || isnan a then a else b.

Definition fmax (a b : num) : num :=
  if fle b a || isnan a then a else b.

(** [np.amin], [np.amax]: reductions without identity, undefined on the
    empty array. *)
Definition amin (a : ndarray) : option num :=
  match a with
  | [] => None
  | v :: r => Some (fold_left fmin r v)
  end.

Definition amax (a : ndarray) : option num :=
  match a with
  | [] => None
  | v :: r => Some (fold_left fmax r v)
  end.

(** *** [np.interp]

    The lookup of a key in the table [arr] (of at least 2 entries), as
    NumPy's [binary_search_with_guess] does it.  The result is [len] for a
    key beyond the last entry, [-1] for a key before the first one, and
    otherwise an index found
    - in a table of at most 4 entries by a scan from index 1 while
      [key >= arr[i]], returning the index before the stop;
    - in a longer table by trying the three cells around [guess] (the
      index found for the previous key, moved into [1 .. len - 3]) and
      then bisecting, between bounds narrowed to 8 entries from the guess
      where the key allows it.
    On a table that is not non-decreasing, or that holds NaN, the index
    depends on the guess. *)

Fixpoint linear_search (key : num) (rest : ndarray) (i : Z) : Z :=
  match rest with
  | [] => i
  | a :: r => if fle a key then linear_search key r (i + 1) else i
  end.

(** [while (imin < imax)]: the number of rounds is bounded by the length
    of the table, which is the [fuel]. *)
Fixpoint bisect (fuel : nat) (key : num) (arr : ndarray) (imin imax : Z) : Z :=
  match fuel with
  | O => imin
  | S fuel' =>
      if (imin <? imax)%Z then
        let imid := (imin + Z.shiftr (imax - imin) 1)%Z in
        if fle (itemZ arr imid) key
        then bisect fuel' key arr (imid + 1) imax
        else bisect fuel' key arr imin imid
      else imin
  end.

Definition binary_search_with_guess (key : num) (arr : ndarray) (guess : Z)
    : Z :=
  let len := Z.of_nat (length arr) in
  if flt (itemZ arr (len - 1)) key then len
  else if flt key (itemZ arr 0) then (-1)%Z
  else if (len <=? 4)%Z then (linear_search key (tail arr) 1 - 1)%Z
  else
    let guess := if (len - 3 <? guess)%Z then (len - 3)%Z else guess in
    let guess := if (guess <? 1)%Z then 1%Z else guess in
    if flt key (itemZ arr guess) then
      if flt key (itemZ arr (guess - 1)) then
        let imin :=
          if (8 <? guess)%Z && fle (itemZ arr (guess - 8)) key
          then (guess - 8)%Z else 0%Z in
        (bisect (length arr) key arr imin (guess - 1) - 1)%Z
      else (guess - 1)%Z
    else if flt key (itemZ arr (guess + 1)) then guess
    else if flt key (itemZ arr (guess + 2)) then (guess + 1)%Z
    else
      let imax :=
        if (guess <? len - 8 - 1)%Z && flt key (itemZ arr (guess + 8))
        then (guess + 8)%Z else len in
      (bisect (length arr) key arr (guess + 2) imax - 1)%Z.

(** The chord through the points [j] and [j + 1] of the table at [x]:
    [slope * (x - xp[j]) + fp[j]]; when that is NaN the chord is retried
    from the right neighbour, and when that is NaN too and the two table
    values are equal, it is their value. *)
Definition chord (xp fp : ndarray) (j : nat) (x : num) : num :=
  let slope :=
    fdiv (fsub (item fp (S j)) (item fp j))
         (fsub (item xp (S j)) (item xp j)) in
  let r := fadd (fmul slope (fsub x (item xp j))) (item fp j) in
  if isnan r then
    let r' := fadd (fmul slope (fsub x (item xp (S j)))) (item fp (S j)) in
    if isnan r' && feqb (item fp j) (item fp (S j)) then item fp j else r'
  else r.

(** The value at a key for which the lookup gave the index [j] of the
    table: the table value itself at the last index or on a knot, the chord
    through the neighbours otherwise. *)
Definition interp_at (xp fp : ndarray) (x : num) (j : Z) : num :=
  if (j =? Z.of_nat (length xp) - 1)%Z then itemZ fp j
  else if feqb (itemZ xp j) x then itemZ fp j
  else chord xp fp (Z.to_nat j) x.

(** One key, with the default [left = fp[0]] and [right = fp[-1]]: the
    value and the index that becomes the guess for the next key.  A NaN key
    is returned as it is and leaves the guess alone. *)
Definition interp_step (xp fp : ndarray) (guess : Z) (x : num) : num * Z :=
  if isnan x then (x, guess)
  else
    let j := binary_search_with_guess x xp guess in
    (if (j =? -1)%Z then item fp 0
     else if (j =? Z.of_nat (length xp))%Z then List.last fp nan
     else interp_at xp fp x j,
     j).

Fixpoint interp_from (xp fp : ndarray) (guess : Z) (x : ndarray) : ndarray :=
  match x with
  | [] => []
  | v :: r =>
      let (res, j) := interp_step xp fp guess v in
      res :: interp_from xp fp j r
  end.

(** A table of one entry is a case of its own. *)
Definition interp (x xp fp : ndarray) : ndarray :=
  match xp with
  | [xp0] =>
      map (fun v =>
             if flt v xp0 then item fp 0
             else if flt xp0 v then List.last fp nan
             else item fp 0) x
  | _ => interp_from xp fp 0 x
  end.

(** *** [np.argsort]

    The sort order puts NaN last.  The index permutation is built by
    insertion, which keeps equal values in index order (and is what NumPy
    runs on short arrays); another sort of NumPy can only order equal
    values differently. *)

Definition sort_lt (a b : num) : bool :=
  flt a b || (isnan b && negb (isnan a)).

Fixpoint insert_idx (a : ndarray) (i : nat) (l : list nat) : list nat :=
  match l with
  | [] => [i]
  | j :: r =>
      if sort_lt (item a i) (item a j) then i :: l
      else j :: insert_idx a i r
  end.

Definition argsort (a : ndarray) : list nat :=
  fold_left (fun acc i => insert_idx a i acc) (seq 0 (length a)) [].

(** [a[idx]] with an index array: [None] when an index is out of range. *)
Definition take_idx (a : ndarray) (idx : list nat) : option ndarray :=
  mapM (fun i => a !! i) idx.

(** *** [np.dot]

    The inner product of two one-dimensional arrays of one size and the
    product of a two-dimensional array (its number of columns and its
    rows) with a one-dimensional one: the sizes must agree.  The products
    are added from the left, starting from 0, as the reference BLAS does
    (an optimised BLAS may add in another order). *)
Definition inner (a b : ndarray) : num :=
  fold_left fadd (map (fun p => fmul (fst p) (snd p)) (combine a b)) (of_Z 0).

Definition dot (a b : ndarray) : option num :=
  if Nat.eqb (length a) (length b) then Some (inner a b) else None.

Record ndarray2 : Type := Array2 {
  ncols : nat;
  rows : list ndarray
}.

Definition matvec (m : ndarray2) (v : ndarray) : option ndarray :=
  if Nat.eqb (ncols m) (length v)
  then Some (map (fun row => inner row v) (rows m))
  else None.

End Kernels.

(** ** Program state and the monad of notebook code *)

Definition loc : Type := nat.

Section Monad.
Context {Ar : Arith}.

(** The heap holds every array ever created (nothing is collected); the
    random generator is the stream of its standard uniform draws, floats in
    [0, 1), and the count of draws consumed. *)
Record pystate : Type := PyState {
  heap : list ndarray;
  stream : nat -> num;
  drawn : nat
}.

Definition M (T : Type) : Type := pystate -> result T * pystate.

Definition ret {T : Type} (a : T) : M T := fun s => (Ok a, s).

Definition raise {T : Type} (e : exn) : M T := fun s => (Raise e, s).

Definition bind {T U : Type} (c : M T) (k : T -> M U) : M U :=
  fun s =>
    match c s with
    | (Ok a, s') => k a s'
    | (Raise e, s') => (Raise e, s')
    end.

Definition set_heap (s : pystate) (h : list ndarray) : pystate :=
  {| heap := h; stream := stream s; drawn := drawn s |}.

Definition load (l : loc) : M ndarray :=
  fun s =>
    match heap s !! l with
    | Some a => (Ok a, s)
    | None => (Raise Dangling, s)
    end.

(** A new array object, at the next free location. *)
Definition alloc (a : ndarray) : M loc :=
  fun s => (Ok (length (heap s)), set_heap s (heap s ++ [a])).

(** In-place replacement of the contents of an existing array object. *)
Definition store (l : loc) (a : ndarray) : M unit :=
  fun s => (Ok tt, set_heap s (<[l := a]> (heap s))).

Definition lift {T : Type} (e : exn) (o : option T) : M T :=
  match o with
  | Some a => ret a
  | None => raise e
  end.

(** The next [k] standard uniform draws. *)
Definition random_sample (k : nat) : M ndarray :=
  fun s =>
    (Ok (map (fun i => stream s (drawn s + i)%nat) (seq 0 k)),
     {| heap := heap s; stream := stream s; drawn := (drawn s + k)%nat |}).

End Monad.

Declare Scope py_scope.
Delimit Scope py_scope with py.
Notation "x <- c ;; k" := (bind c (fun x => k))
  (at level 100, c at next level, right associativity) : py_scope.
Notation "c ;;; k" := (bind c (fun _ => k))
  (at level 100, right associativity) : py_scope.

Local Open Scope py_scope.

(** ** NumPy calls as heap operations *)

Section NumPy.
Context {Ar : Arith}.

(** [np.cumsum(y)]: a new array. *)
Definition np_cumsum (y : loc) : M loc :=
  a <- load y ;; alloc (cumsum a).

(** [a[-1]]: the last item, a scalar copy. *)
Definition getitem_last (l : loc) : M num :=
  a <- load l ;;
  match a with
  | [] => raise IndexError
  | _ => ret (List.last a nan)
  end.

(** [a /= d]: in place. *)
Definition idiv (l : loc) (d : num) : M unit :=
  a <- load l ;; store l (div_scalar a d).

(** [np.random.uniform(low, high, n)] with scalar bounds:
    [low + (high - low) * u] for each of [n] standard draws [u]. *)
Definition np_random_uniform (low high : num) (n : Z) : M loc :=
  let range := fsub high low in
  if negb (isfinite range) then raise OverflowError
  else if (n <? 0)%Z then raise ValueError
  else
    us <- random_sample (Z.to_nat n) ;;
    alloc (map (fun u => fadd low (fmul range u)) us).

(** [np.interp(x, xp, fp)]: a new array. *)
Definition np_interp (x xp fp : loc) : M loc :=
  xv <- load x ;;
  xpv <- load xp ;;
  fpv <- load fp ;;
  if Nat.eqb (length xpv) 0 then raise ValueError
  else if negb (Nat.eqb (length fpv) (length xpv)) then raise ValueError
  else alloc (interp xv xpv fpv).

(** [np.argsort(a)]: the index array is a local value that is only read. *)
Definition np_argsort (l : loc) : M (list nat) :=
  a <- load l ;; ret (argsort a).

(** [a[idx]]: a new array. *)
Definition getitem_idx (l : loc) (idx : list nat) : M loc :=
  a <- load l ;;
  r <- lift IndexError (take_idx a idx) ;;
  alloc r.

Definition np_amin (l : loc) : M num :=
  a <- load l ;; lift ValueError (amin a).

Definition np_amax (l : loc) : M num :=
  a <- load l ;; lift ValueError (amax a).

(** [scipy.integrate.trapz(y, x = x)]. *)
Definition np_trapz (y x : loc) : M num :=
  yv <- load y ;;
  xv <- load x ;;
  lift ValueError (trapz yv xv).

(** [a * b], [a / b] on arrays and [c * a] for a scalar [c]: new arrays. *)
Definition np_mul (a b : loc) : M loc :=
  av <- load a ;;
  bv <- load b ;;
  r <- lift ValueError (broadcast2 fmul av bv) ;;
  alloc r.

Definition np_div (a b : loc) : M loc :=
  av <- load a ;;
  bv <- load b ;;
  r <- lift ValueError (broadcast2 fdiv av bv) ;;
  alloc r.

Definition np_scalar_mul (c : num) (a : loc) : M loc :=
  av <- load a ;; alloc (mul_scalar c av).

(** ** The notebook functions *)

(** Inversion sampling notebook:
<<
    y1 = np.cumsum(y)
    y1 /= y1[-1]
    ysample = np.random.uniform(0, 1, n)
    xsample = np.interp(ysample, y1, x)
    idx = np.argsort(xsample)
    xsample = xsample[idx]
    ysample = ysample[idx]
    return xsample
>> *)
Definition inversionSampling (x y : loc) (n : Z) : M loc :=
  y1 <- np_cumsum y ;;
  d <- getitem_last y1 ;;
  idiv y1 d ;;;
  ysample <- np_random_uniform (of_Z 0) (of_Z 1) n ;;
  xsample <- np_interp ysample y1 x ;;
  idx <- np_argsort xsample ;;
  xsample' <- getitem_idx xsample idx ;;
  ysample' <- getitem_idx ysample idx ;;
  ret xsample'.

(** Importance sampling notebook, four arguments:
<<
    xmin = np.amin(x)
    xmax = np.amax(x)
    norm = scipy.integrate.trapz(w, x = x)
    xsample = np.random.uniform(xmin, xmax, n)
    weights = norm * np.interp(xsample, x, f) / np.interp(xsample, x, w)
    return xsample, weights
>> *)
Definition importanceSampling (x f w : loc) (n : Z) : M (loc * loc) :=
  xmin <- np_amin x ;;
  xmax <- np_amax x ;;
  norm <- np_trapz w x ;;
  xsample <- np_random_uniform xmin xmax n ;;
  fi <- np_interp xsample x f ;;
  num <- np_scalar_mul norm fi ;;
  wi <- np_interp xsample x w ;;
  weights <- np_div num wi ;;
  ret (xsample, weights).

(** Importance sampling notebook, five arguments: the same body except for
    the interpolated numerator, [np.interp(xsample, x, y * w)]. *)
Definition importanceSampling5 (x y f w : loc) (n : Z) : M (loc * loc) :=
  xmin <- np_amin x ;;
  xmax <- np_amax x ;;
  norm <- np_trapz w x ;;
  xsample <- np_random_uniform xmin xmax n ;;
  yw <- np_mul y w ;;
  fi <- np_interp xsample x yw ;;
  num <- np_scalar_mul norm fi ;;
  wi <- np_interp xsample x w ;;
  weights <- np_div num wi ;;
  ret (xsample, weights).

(** The estimate of pi.  Both copies of the notebook run the same cells
    (with [r = 1.] and [n = 1000000], taken as parameters here):
<<
    x = np.random.uniform(0, r, n)
    y = np.random.uniform(0, r, n)
    counter = 0.
    pi_arr = []
    for i in range(n):
        if x[i] ** 2 + y[i] ** 2 <= 1.:
            counter += 1
            pi = 4 * counter / (i + 1)
            pi_arr.append(pi)
>> *)

(** The test of the loop body. *)
Definition inside_circle (xi yi : num) : bool :=
  fle (fadd (fsquare xi) (fsquare yi)) (of_Z 1).

(** One pass of the loop body on [counter] and [pi_arr], a Python list. *)
Definition pi_step (xv yv : ndarray) (st : num * list num) (i : nat)
    : num * list num :=
  let (counter, pi_arr) := st in
  if inside_circle (item xv i) (item yv i) then
    let counter' := fadd counter (of_Z 1) in
    let pi := fdiv (fmul (of_Z 4) counter') (of_Z (Z.of_nat i + 1)) in
    (counter', pi_arr ++ [pi])
  else st.

Definition pi_loop (xv yv : ndarray) (n : nat) : num * list num :=
  fold_left (pi_step xv yv) (seq 0 n) (of_Z 0, []).

Definition estimate_pi (r : num) (n : Z) : M (num * list num) :=
  x <- np_random_uniform (of_Z 0) r n ;;
  y <- np_random_uniform (of_Z 0) r n ;;
  xv <- load x ;;
  yv <- load y ;;
  ret (pi_loop xv yv (Z.to_nat n)).

(** The log-density of the MCMC notebook:
<<
    def lnProb(x, mu, icov):
        diff = x - mu
        return -np.dot(diff, np.dot(icov, diff)) / 2.
>>
    [lnProb] neither draws nor updates anything in place, so it is a
    function of the contents of its arguments. *)
Definition lnProb (x mu : ndarray) (icov : ndarray2) : result num :=
  match broadcast2 fsub x mu with
  | None => Raise ValueError
  | Some diff =>
      match matvec icov diff with
      | None => Raise ValueError
      | Some v =>
          match dot diff v with
          | None => Raise ValueError
          | Some d => Ok (fdiv (fneg d) (of_Z 2))
          end
      end
  end.

(** ** Vocabulary of the statements *)

(** Reading the result of a call back from the final state. *)
Definition contents (s : pystate) (l : loc) : ndarray :=
  default [] (heap s !! l).

(** What a call gives back to its caller: the contents of the returned
    array, or the exception. *)
Definition outcome (r : result loc * pystate) : result ndarray :=
  match r with
  | (Ok l, s) => Ok (contents s l)
  | (Raise e, _) => Raise e
  end.

Definition outcome2 (r : result (loc * loc) * pystate)
    : result (ndarray * ndarray) :=
  match r with
  | (Ok (l1, l2), s) => Ok (contents s l1, contents s l2)
  | (Raise e, _) => Raise e
  end.

(** The normalised cumulative table that [inversionSampling] builds in
    [y1]. *)
Definition cdf_table (ys : ndarray) : ndarray :=
  div_scalar (cumsum ys) (List.last (cumsum ys) nan).

(** The array [np.random.uniform(low, high, k)] makes of the draws
    [u p], [u (p + 1)], ... *)
Definition uniform_array (low high : num) (u : nat -> num) (p k : nat)
    : ndarray :=
  map (fun v => fadd low (fmul (fsub high low) v))
      (map (fun i => u (p + i)%nat) (seq 0 k)).

(** [b[np.argsort(a)]]. *)
Definition reorder (a b : ndarray) : ndarray := map (item b) (argsort a).


(** A grid that increases strictly from each entry to the next. *)
Definition increasing (xs : ndarray) : Prop :=
  forall j, (S j < length xs)%nat ->
    flt (item xs j) (item xs (S j)) = true.

(** A zero, of either sign where zeros have one. *)
Definition is_zero (v : num) : Prop := feqb v (of_Z 0) = true.


Definition mkstate (h : list ndarray) (u : nat -> num) : pystate :=
  {| heap := h; stream := u; drawn := 0 |}.

(** A test stream: the listed draws, then [d] for ever. *)
Definition draws_of (l : list num) (d : num) : nat -> num :=
  fun i => nth i l d.

(** What a call of [inversionSampling] does, as a function of the contents
    of its arguments and of the draws from position [p] on: the result (the
    returned array or the exception), the arrays it creates, in order of
    creation, and the number of draws it consumes. *)
Definition inversion_run (xs ys : ndarray) (n : Z) (u : nat -> num) (p : nat)
    : result ndarray * list ndarray * nat :=
  if Nat.eqb (length ys) 0 then (Raise IndexError, [[]], 0%nat)
  else
    let F := cdf_table ys in
    if negb (isfinite (fsub (of_Z 1) (of_Z 0)))
    then (Raise OverflowError, [F], 0%nat)
    else if (n <? 0)%Z then (Raise ValueError, [F], 0%nat)
    else
      let k := Z.to_nat n in
      let U := uniform_array (of_Z 0) (of_Z 1) u p k in
      if negb (Nat.eqb (length xs) (length ys))
      then (Raise ValueError, [F; U], k)
      else
        let X := interp U F xs in
        (Ok (reorder X X), [F; U; X; reorder X X; reorder X U], k).

(** The location of the returned array, counted from the first free
    location [base], and the final state of a run. *)
Definition placed1 (base i : nat)
    (r : result ndarray * list ndarray * nat) (s : pystate)
    : result loc * pystate :=
  match r with
  | (res, new, k) =>
      (match res with
       | Ok _ => Ok (base + i)%nat
       | Raise e => Raise e
       end,
       {| heap := heap s ++ new;
          stream := stream s;
          drawn := (drawn s + k)%nat |})
  end.

(** What a call of [importanceSampling] does, as a function of the contents
    of its arguments and of the draws from position [p] on: the result (the
    two returned arrays or the exception), the arrays it creates, in order
    of creation, and the number of draws it consumes. *)
Definition importance_run (xs fs ws : ndarray) (n : Z) (u : nat -> num)
    (p : nat) : result (ndarray * ndarray) * list ndarray * nat :=
  match amin xs, amax xs, trapz ws xs with
  | Some xmin, Some xmax, Some norm =>
      if negb (isfinite (fsub xmax xmin)) then (Raise OverflowError, [], 0%nat)
      else if (n <? 0)%Z then (Raise ValueError, [], 0%nat)
      else
        let k := Z.to_nat n in
        let X := uniform_array xmin xmax u p k in
        if negb (Nat.eqb (length fs) (length xs))
        then (Raise ValueError, [X], k)
        else
          let FI := interp X xs fs in
          let NUM := mul_scalar norm FI in
          if negb (Nat.eqb (length ws) (length xs))
          then (Raise ValueError, [X; FI; NUM], k)
          else
            let WI := interp X xs ws in
            match broadcast2 fdiv NUM WI with
            | Some W => (Ok (X, W), [X; FI; NUM; WI; W], k)
            | None => (Raise ValueError, [X; FI; NUM; WI], k)
            end
  | _, _, _ => (Raise ValueError, [], 0%nat)
  end.

(** The same for the five-argument variant: [fs] does not occur. *)
Definition importance5_run (xs ys ws : ndarray) (n : Z) (u : nat -> num)
    (p : nat) : result (ndarray * ndarray) * list ndarray * nat :=
  match amin xs, amax xs, trapz ws xs with
  | Some xmin, Some xmax, Some norm =>
      if negb (isfinite (fsub xmax xmin)) then (Raise OverflowError, [], 0%nat)
      else if (n <? 0)%Z then (Raise ValueError, [], 0%nat)
      else
        let k := Z.to_nat n in
        let X := uniform_array xmin xmax u p k in
        match broadcast2 fmul ys ws with
        | None => (Raise ValueError, [X], k)
        | Some YW =>
            if negb (Nat.eqb (length YW) (length xs))
            then (Raise ValueError, [X; YW], k)
            else
              let FI := interp X xs YW in
              let NUM := mul_scalar norm FI in
              if negb (Nat.eqb (length ws) (length xs))
              then (Raise ValueError, [X; YW; FI; NUM], k)
              else
                let WI := interp X xs ws in
                match broadcast2 fdiv NUM WI with
                | Some W => (Ok (X, W), [X; YW; FI; NUM; WI; W], k)
                | None => (Raise ValueError, [X; YW; FI; NUM; WI], k)
                end
        end
  | _, _, _ => (Raise ValueError, [], 0%nat)
  end.

(** The locations of the two returned arrays, counted from the first free
    location [base], and the final state of a run. *)
Definition placed (base i j : nat)
    (r : result (ndarray * ndarray) * list ndarray * nat) (s : pystate)
    : result (loc * loc) * pystate :=
  match r with
  | (res, new, k) =>
      (match res with
       | Ok _ => Ok ((base + i)%nat, (base + j)%nat)
       | Raise e => Raise e
       end,
       {| heap := heap s ++ new;
          stream := stream s;
          drawn := (drawn s + k)%nat |})
  end.

(** Linear interpolation of the table [(xs, fs)] at [t] in the spec's
    words: the first or the last table value for a [t] outside the grid,
    the table value on a grid point, and between two neighbouring grid
    points the value of the chord through them. *)
Definition spec_lerp (xs fs : ndarray) (t v : num) : Prop :=
  (flt (List.last xs nan) t = true /\ v = List.last fs nan) \/
  (flt t (item xs 0) = true /\ v = item fs 0) \/
  exists j, (j < length xs)%nat /\
    ((feqb (item xs j) t = true /\ v = item fs j) \/
     ((S j < length xs)%nat /\
      flt (item xs j) t = true /\ flt t (item xs (S j)) = true /\
      v = chord xs fs j t)).

(** The summands of the trapezoidal rule in the spec's words: for each cell
    of the grid its width times the mean of the two tabulated values. *)
Definition spec_trapz_terms (xs ws : ndarray) : ndarray :=
  map (fun i =>
         fdiv (fmul (fsub (item xs (S i)) (item xs i))
                    (fadd (item ws (S i)) (item ws i)))
              (of_Z 2))
      (seq 0 (length xs - 1)).

(** *** Which calls raise

    What a caller observes of the argument checks: whether the call
    returned or which exception it raised, and how many draws it took from
    the generator. *)
Definition status {T : Type} (r : result T * pystate) (s : pystate)
    : result unit * nat :=
  (match fst r with Ok _ => Ok tt | Raise e => Raise e end,
   (drawn (snd r) - drawn s)%nat).

(** Whether [np.random.uniform(np.amin(x), np.amax(x), n)] finds a finite
    range [max(x) - min(x)]. *)
Definition range_finite (xs : ndarray) : bool :=
  match amin xs, amax xs with
  | Some xmin, Some xmax => isfinite (fsub xmax xmin)
  | _, _ => false
  end.

(** *** The loop of the estimate of pi *)

(** The indices of the points that pass the test, in order. *)
Definition hits (xv yv : ndarray) (n : nat) : list nat :=
  List.filter (fun i => inside_circle (item xv i) (item yv i)) (seq 0 n).

(** [counter] after [k] points passed the test: 1 added [k] times to 0. *)
Fixpoint count (k : nat) : num :=
  match k with
  | O => of_Z 0
  | S k' => fadd (count k') (of_Z 1)
  end.

(** *** Two-dimensional arrays *)

Definition wf_array2 (m : ndarray2) : Prop :=
  Forall (fun row => length row = ncols m) (rows m).

End NumPy.

(** Lengths that NumPy broadcasts against each other. *)
Definition broadcasts (a b : nat) : bool :=
  Nat.eqb a b || Nat.eqb a 1 || Nat.eqb b 1.

(** The checks that [inversionSampling] inherits from NumPy, by the lengths
    [mx], [my] of its arguments and the count [n]. *)
Definition inversion_checks (mx my : nat) (n : Z) : result unit * nat :=
  if Nat.eqb my 0 then (Raise IndexError, 0%nat)
  else if (n <? 0)%Z then (Raise ValueError, 0%nat)
  else if Nat.eqb mx my then (Ok tt, Z.to_nat n)
  else (Raise ValueError, Z.to_nat n).

(** The same for [importanceSampling], by the lengths of [x], [f] and [w],
    whether the range of the grid is finite, and [n]. *)
Definition importance_checks (mx mf mw : nat) (finite_range : bool) (n : Z)
    : result unit * nat :=
  if Nat.eqb mx 0 then (Raise ValueError, 0%nat)
  else if negb (broadcasts (mx - 1) (mw - 1)) then (Raise ValueError, 0%nat)
  else if negb finite_range then (Raise OverflowError, 0%nat)
  else if (n <? 0)%Z then (Raise ValueError, 0%nat)
  else if negb (Nat.eqb mf mx) then (Raise ValueError, Z.to_nat n)
  else if negb (Nat.eqb mw mx) then (Raise ValueError, Z.to_nat n)
  else (Ok tt, Z.to_nat n).

(** ** What the statements need of the arithmetic

    Facts of IEEE arithmetic that hold in both instances: NaN is the one
    value that [isnan] recognises, it propagates through the operations and
    every comparison with it is false; [<] and [<=] order the other values;
    zeros add up to a zero, [0 / 0] is NaN, nothing divided by a zero is
    finite, and a finite value other than zero divided by itself is 1. *)
Class Ieee (Ar : Arith) : Prop := {
  unit_range : isfinite (fsub (of_Z 1) (of_Z 0)) = true;
  isnan_nan : isnan nan = true;
  isnan_eq : forall a, isnan a = true -> a = nan;
  fadd_nan_l : forall a, fadd nan a = nan;
  fadd_nan_r : forall a, fadd a nan = nan;
  fsub_nan_l : forall a, fsub nan a = nan;
  fsub_nan_r : forall a, fsub a nan = nan;
  fmul_nan_l : forall a, fmul nan a = nan;
  fmul_nan_r : forall a, fmul a nan = nan;
  fdiv_nan_l : forall a, fdiv nan a = nan;
  fdiv_nan_r : forall a, fdiv a nan = nan;
  flt_nan_l : forall a, flt nan a = false;
  flt_nan_r : forall a, flt a nan = false;
  fle_nan_l : forall a, fle nan a = false;
  fle_nan_r : forall a, fle a nan = false;
  feqb_nan_l : forall a, feqb nan a = false;
  feqb_nan_r : forall a, feqb a nan = false;
  fle_total : forall a b,
    isnan a = false -> isnan b = false -> flt b a = false -> fle a b = true;
  flt_fle : forall a b, flt a b = true -> fle a b = true;
  flt_not_fle : forall a b, flt a b = true -> fle b a = false;
  fle_trans : forall a b c,
    fle a b = true -> fle b c = true -> fle a c = true;
  flt_neq : forall a b, flt a b = true -> feqb a b = false;
  zero_add : forall a b,
    feqb a (of_Z 0) = true -> feqb b (of_Z 0) = true ->
    feqb (fadd a b) (of_Z 0) = true;
  zero_div_zero : forall a b,
    feqb a (of_Z 0) = true -> feqb b (of_Z 0) = true -> fdiv a b = nan;
  div_zero : forall a b,
    feqb b (of_Z 0) = true -> isfinite (fdiv a b) = false;
  div_self : forall a,
    isfinite a = true -> feqb a (of_Z 0) = false ->
    feqb (fdiv a a) (of_Z 1) = true;
  fle_lt : forall a b,
    fle a b = true -> feqb b a = false -> flt a b = true;
  feqb_sym : forall a b, feqb a b = feqb b a
}.


(** ** binary64

    IEEE 754 binary64 as the specification floats of the standard library:
    a float is a signed zero, a signed infinity, NaN, or a sign, a mantissa
    and an exponent; every operation rounds to nearest, ties to even. *)

Definition prec : Z := 53.
Definition emax : Z := 1024.

(** The float nearest to [m * 2 ^ e]. *)
Definition dyadic (m e : Z) : spec_float := binary_normalize prec emax m e false.

Definition b64_isnan (a : spec_float) : bool :=
  match a with S754_nan => true | _ => false end.

Definition b64_isfinite (a : spec_float) : bool :=
  match a with S754_zero _ | S754_finite _ _ _ => true | _ => false end.

(** [pow(v, 2.0)] is taken as the correctly rounded square (the C library
    stays within one unit in the last place of it). *)
Definition b64 : Arith := {|
  num := spec_float;
  nan := S754_nan;
  of_Z := fun k => dyadic k 0;
  fneg := SFopp;
  fadd := SFadd prec emax;
  fsub := SFsub prec emax;
  fmul := SFmul prec emax;
  fdiv := SFdiv prec emax;
  fsquare := fun v => SFmul prec emax v v;
  flt := SFltb;
  fle := SFleb;
  feqb := SFeqb;
  isnan := b64_isnan;
  isfinite := b64_isfinite
|}.

(** ** Exact arithmetic *)

Local Open Scope Q_scope.

Definition Qlt_bool (a b : Q) : bool := negb (Qle_bool b a).

Inductive npfloat : Type :=
  | Fin (q : Q)
  | Inf (neg : bool)
  | NaN.

Definition qisnan (a : npfloat) : bool :=
  match a with NaN => true | _ => false end.

Definition qisfinite (a : npfloat) : bool :=
  match a with Fin _ => true | _ => false end.

Definition qneg (a : npfloat) : npfloat :=
  match a with
  | Fin q => Fin (- q)
  | Inf s => Inf (negb s)
  | NaN => NaN
  end.

Definition qadd (a b : npfloat) : npfloat :=
  match a, b with
  | NaN, _ | _, NaN => NaN
  | Fin p, Fin q => Fin (p + q)
  | Inf s, Fin _ | Fin _, Inf s => Inf s
  | Inf s, Inf t => if Bool.eqb s t then Inf s else NaN
  end.

Definition qsub (a b : npfloat) : npfloat :=
  match a, b with
  | NaN, _ | _, NaN => NaN
  | Fin p, Fin q => Fin (p - q)
  | Inf s, Fin _ => Inf s
  | Fin _, Inf s => Inf (negb s)
  | Inf s, Inf t => if Bool.eqb s t then NaN else Inf s
  end.

(** Sign of an infinity scaled by the finite factor [q]; NaN when [q] is 0. *)
Definition scale_inf (s : bool) (q : Q) : npfloat :=
  match q ?= 0 with
  | Eq => NaN
  | Gt => Inf s
  | Lt => Inf (negb s)
  end.

Definition qmul (a b : npfloat) : npfloat :=
  match a, b with
  | NaN, _ | _, NaN => NaN
  | Fin p, Fin q => Fin (p * q)
  | Inf s, Fin q | Fin q, Inf s => scale_inf s q
  | Inf s, Inf t => Inf (xorb s t)
  end.

(** Division never raises: [p / 0] is NaN for [p = 0] and an infinity of
    the sign of [p] otherwise. *)
Definition qdiv (a b : npfloat) : npfloat :=
  match a, b with
  | NaN, _ | _, NaN => NaN
  | Fin p, Fin q =>
      if Qeq_bool q 0 then
        match p ?= 0 with
        | Eq => NaN
        | Gt => Inf false
        | Lt => Inf true
        end
      else Fin (p / q)
  | Fin _, Inf _ => Fin 0
  | Inf s, Fin q => if Qlt_bool q 0 then Inf (negb s) else Inf s
  | Inf _, Inf _ => NaN
  end.

(** Comparisons are false as soon as one side is NaN. *)
Definition qlt (a b : npfloat) : bool :=
  match a, b with
  | Fin p, Fin q => Qlt_bool p q
  | Fin _, Inf s => negb s
  | Inf s, Fin _ => s
  | Inf s, Inf t => s && negb t
  | _, _ => false
  end.

Definition qle (a b : npfloat) : bool :=
  match a, b with
  | Fin p, Fin q => Qle_bool p q
  | Fin _, Inf s => negb s
  | Inf s, Fin _ => s
  | Inf s, Inf t => s || negb t
  | _, _ => false
  end.

Definition qeqb (a b : npfloat) : bool :=
  match a, b with
  | Fin p, Fin q => Qeq_bool p q
  | Inf s, Inf t => Bool.eqb s t
  | _, _ => false
  end.

Definition exact : Arith := {|
  num := npfloat;
  nan := NaN;
  of_Z := fun k => Fin (inject_Z k);
  fneg := qneg;
  fadd := qadd;
  fsub := qsub;
  fmul := qmul;
  fdiv := qdiv;
  fsquare := fun v => qmul v v;
  flt := qlt;
  fle := qle;
  feqb := qeqb;
  isnan := qisnan;
  isfinite := qisfinite
|}.


(** Prefix sums and the sum of rationals. *)
Fixpoint qcumsum_from (acc : Q) (l : list Q) : list Q :=
  match l with
  | [] => []
  | v :: r => (acc + v) :: qcumsum_from (acc + v) r
  end.

Definition qcumsum (l : list Q) : list Q :=
  match l with
  | [] => []
  | v :: r => v :: qcumsum_from v r
  end.

Definition Qsum (l : list Q) : Q := fold_right Qplus 0 l.

(** The cumulative table in the spec's words: the prefix sums of [y],
    each divided by the final one. *)
Definition spec_table (l : list Q) : list Q :=
  map (fun v => v / List.last (qcumsum l) 0) (qcumsum l).


(** ** Concrete runs

    binary64 arrays with integer entries, and the states of the runs that
    the statements are checked on: the grid [0, 1, 2, 3] with the density
    [1, 2, 1, 0]; the same grid with a density that is identically zero; a
    grid [0, 1, 2] with a target table, two proposal tables (one positive,
    one zero on the first cell) and a spare array; a grid that decreases; a
    grid longer than its density. *)
Local Open Scope Z_scope.

Definition zs (l : list Z) : ndarray (Ar := b64) :=
  map (fun k => dyadic k 0) l.

(** An array of binary64 values. *)
Definition f64 (l : list spec_float) : ndarray (Ar := b64) := l.

Definition demo_draws : nat -> spec_float :=
  draws_of (Ar := b64) [dyadic 1 (-1); dyadic 1 (-3); dyadic 7 (-3)]
    (dyadic 1 (-1)).

Definition demo_inversion : pystate (Ar := b64) :=
  mkstate (Ar := b64) [zs [0; 1; 2; 3]; zs [1; 2; 1; 0]] demo_draws.

Definition demo_zero : pystate (Ar := b64) :=
  mkstate (Ar := b64) [zs [0; 1; 2; 3]; zs [0; 0; 0; 0]] demo_draws.

Definition demo_importance : pystate (Ar := b64) :=
  mkstate (Ar := b64) [zs [0; 1; 2]; zs [1; 1; 1]; zs [1; 2; 1]; zs [0; 0; 1];
           zs [7; 7; 7]]
          (draws_of (Ar := b64) [dyadic 1 (-2); dyadic 3 (-2)] (dyadic 1 (-1))).

Definition demo_decreasing : pystate (Ar := b64) :=
  mkstate (Ar := b64) [zs [1; 0]; zs [1; 1]] demo_draws.

Definition demo_mismatch : pystate (Ar := b64) :=
  mkstate (Ar := b64) [zs [0; 1; 2]; zs [1; 1]] demo_draws.


Definition wide : ndarray (Ar := b64) :=
  f64 [dyadic (-1) 1023; dyadic 1 1023].



Definition demo_range : pystate (Ar := b64) :=
  mkstate (Ar := b64) [wide; zs [1; 1]; zs [1; 1]]
          demo_draws.


Local Close Scope Z_scope.

(** * Proofs *)

Local Open Scope py_scope.

Ltac heap_lookup :=
  simpl;
  repeat first
    [ eassumption
    | apply list_lookup_middle; reflexivity
    | apply lookup_app_l_Some ].

Ltac run_step H :=
  unfold bind at 1; rewrite H; cbn iota beta.

(** ** Running the monad *)

Section Runs.
Context {Ar : Arith}.

Lemma bind_ok {T U : Type} (c : M T) (k : T -> M U) s a s' :
  c s = (Ok a, s') -> bind c k s = k a s'.
Proof. intros H. unfold bind. now rewrite H. Qed.

Lemma bind_raise {T U : Type} (c : M T) (k : T -> M U) s e s' :
  c s = (Raise e, s') -> bind c k s = (Raise e, s').
Proof. intros H. unfold bind. now rewrite H. Qed.

Lemma load_run s l a : heap s !! l = Some a -> load l s = (Ok a, s).
Proof. intros H. unfold load. now rewrite H. Qed.

Lemma take_idx_in_range (a : ndarray) (idx : list nat) :
  Forall (fun i => (i < length a)%nat) idx ->
  take_idx a idx = Some (map (item a) idx).
Proof.
  intros H. unfold take_idx. apply mapM_Some_2.
  induction H as [|i idx Hi _ IH]; simpl; constructor; [|exact IH].
  destruct (lookup_lt_is_Some_2 a i Hi) as [v Hv].
  unfold item. now rewrite (nth_lookup a i nan), Hv.
Qed.

Lemma np_cumsum_run s y a :
  heap s !! y = Some a ->
  np_cumsum y s = (Ok (length (heap s)), set_heap s (heap s ++ [cumsum a])).
Proof.
  intros H. unfold np_cumsum. now rewrite (bind_ok _ _ _ _ _ (load_run _ _ _ H)).
Qed.

Lemma getitem_last_run s l a :
  heap s !! l = Some a -> a <> [] ->
  getitem_last l s = (Ok (List.last a nan), s).
Proof.
  intros H Ha. unfold getitem_last.
  rewrite (bind_ok _ _ _ _ _ (load_run _ _ _ H)).
  destruct a; [contradiction|reflexivity].
Qed.

Lemma getitem_last_empty s l :
  heap s !! l = Some [] -> getitem_last l s = (Raise IndexError, s).
Proof.
  intros H. unfold getitem_last.
  now rewrite (bind_ok _ _ _ _ _ (load_run _ _ _ H)).
Qed.

Lemma idiv_run s l a d :
  heap s !! l = Some a ->
  idiv l d s = (Ok tt, set_heap s (<[l := div_scalar a d]> (heap s))).
Proof.
  intros H. unfold idiv. now rewrite (bind_ok _ _ _ _ _ (load_run _ _ _ H)).
Qed.

Lemma np_random_uniform_run s low high n :
  isfinite (fsub high low) = true -> (0 <= n)%Z ->
  np_random_uniform low high n s =
    (Ok (length (heap s)),
     {| heap := heap s ++
          [uniform_array low high (stream s) (drawn s) (Z.to_nat n)];
        stream := stream s;
        drawn := (drawn s + Z.to_nat n)%nat |}).
Proof.
  intros Hf Hn. unfold np_random_uniform. rewrite Hf. simpl.
  destruct (Z.ltb_spec n 0); [lia|]. reflexivity.
Qed.

Lemma np_random_uniform_neg s low high n :
  isfinite (fsub high low) = true -> (n < 0)%Z ->
  np_random_uniform low high n s = (Raise ValueError, s).
Proof.
  intros Hf Hn. unfold np_random_uniform. rewrite Hf. simpl.
  destruct (Z.ltb_spec n 0); [reflexivity|lia].
Qed.

Lemma np_random_uniform_overflow s low high n :
  isfinite (fsub high low) = false ->
  np_random_uniform low high n s = (Raise OverflowError, s).
Proof. intros Hf. unfold np_random_uniform. now rewrite Hf. Qed.

Lemma np_interp_run s x xp fp xv xpv fpv :
  heap s !! x = Some xv -> heap s !! xp = Some xpv ->
  heap s !! fp = Some fpv ->
  xpv <> [] -> length fpv = length xpv ->
  np_interp x xp fp s =
    (Ok (length (heap s)), set_heap s (heap s ++ [interp xv xpv fpv])).
Proof.
  intros Hx Hxp Hfp Hne Hlen. unfold np_interp.
  rewrite (bind_ok _ _ _ _ _ (load_run _ _ _ Hx)).
  rewrite (bind_ok _ _ _ _ _ (load_run _ _ _ Hxp)).
  rewrite (bind_ok _ _ _ _ _ (load_run _ _ _ Hfp)).
  destruct xpv; [contradiction|].
  rewrite Hlen, Nat.eqb_refl. reflexivity.
Qed.

Lemma np_interp_mismatch s x xp fp xv xpv fpv :
  heap s !! x = Some xv -> heap s !! xp = Some xpv ->
  heap s !! fp = Some fpv ->
  length fpv <> length xpv ->
  np_interp x xp fp s = (Raise ValueError, s).
Proof.
  intros Hx Hxp Hfp Hlen. unfold np_interp.
  rewrite (bind_ok _ _ _ _ _ (load_run _ _ _ Hx)).
  rewrite (bind_ok _ _ _ _ _ (load_run _ _ _ Hxp)).
  rewrite (bind_ok _ _ _ _ _ (load_run _ _ _ Hfp)).
  destruct (Nat.eqb (length xpv) 0); [reflexivity|].
  apply Nat.eqb_neq in Hlen. now rewrite Hlen.
Qed.

Lemma np_argsort_run s l a :
  heap s !! l = Some a -> np_argsort l s = (Ok (argsort a), s).
Proof.
  intros H. unfold np_argsort.
  now rewrite (bind_ok _ _ _ _ _ (load_run _ _ _ H)).
Qed.

Lemma getitem_idx_run s l a idx :
  heap s !! l = Some a ->
  Forall (fun i => (i < length a)%nat) idx ->
  getitem_idx l idx s =
    (Ok (length (heap s)), set_heap s (heap s ++ [map (item a) idx])).
Proof.
  intros H Hidx. unfold getitem_idx.
  rewrite (bind_ok _ _ _ _ _ (load_run _ _ _ H)).
  now rewrite (take_idx_in_range _ _ Hidx).
Qed.

Lemma np_amin_run s l a :
  heap s !! l = Some a ->
  np_amin l s =
    (match amin a with Some v => Ok v | None => Raise ValueError end, s).
Proof.
  intros H. unfold np_amin.
  rewrite (bind_ok _ _ _ _ _ (load_run _ _ _ H)).
  now destruct (amin a).
Qed.

Lemma np_amax_run s l a :
  heap s !! l = Some a ->
  np_amax l s =
    (match amax a with Some v => Ok v | None => Raise ValueError end, s).
Proof.
  intros H. unfold np_amax.
  rewrite (bind_ok _ _ _ _ _ (load_run _ _ _ H)).
  now destruct (amax a).
Qed.

Lemma np_trapz_run s y x yv xv :
  heap s !! y = Some yv -> heap s !! x = Some xv ->
  np_trapz y x s =
    (match trapz yv xv with Some v => Ok v | None => Raise ValueError end, s).
Proof.
  intros Hy Hx. unfold np_trapz.
  rewrite (bind_ok _ _ _ _ _ (load_run _ _ _ Hy)).
  rewrite (bind_ok _ _ _ _ _ (load_run _ _ _ Hx)).
  now destruct (trapz yv xv).
Qed.

Lemma np_scalar_mul_run s c l a :
  heap s !! l = Some a ->
  np_scalar_mul c l s =
    (Ok (length (heap s)), set_heap s (heap s ++ [mul_scalar c a])).
Proof.
  intros H. unfold np_scalar_mul.
  now rewrite (bind_ok _ _ _ _ _ (load_run _ _ _ H)).
Qed.

Lemma np_div_run s a b av bv :
  heap s !! a = Some av -> heap s !! b = Some bv ->
  np_div a b s =
    match broadcast2 fdiv av bv with
    | Some r => (Ok (length (heap s)), set_heap s (heap s ++ [r]))
    | None => (Raise ValueError, s)
    end.
Proof.
  intros Ha Hb. unfold np_div.
  rewrite (bind_ok _ _ _ _ _ (load_run _ _ _ Ha)).
  rewrite (bind_ok _ _ _ _ _ (load_run _ _ _ Hb)).
  now destruct (broadcast2 fdiv av bv).
Qed.

Lemma np_mul_run s a b av bv :
  heap s !! a = Some av -> heap s !! b = Some bv ->
  np_mul a b s =
    match broadcast2 fmul av bv with
    | Some r => (Ok (length (heap s)), set_heap s (heap s ++ [r]))
    | None => (Raise ValueError, s)
    end.
Proof.
  intros Ha Hb. unfold np_mul.
  rewrite (bind_ok _ _ _ _ _ (load_run _ _ _ Ha)).
  rewrite (bind_ok _ _ _ _ _ (load_run _ _ _ Hb)).
  now destruct (broadcast2 fmul av bv).
Qed.

Lemma state_eta s :
  s = {| heap := heap s ++ []; stream := stream s; drawn := (drawn s + 0)%nat |}.
Proof. destruct s. simpl. now rewrite app_nil_r, Nat.add_0_r. Qed.

Lemma lookup_fresh (h l : list ndarray) i :
  (h ++ l) !! (length h + i)%nat = l !! i.
Proof.
  rewrite lookup_app_r by lia. f_equal. lia.
Qed.

(** ** Lengths and items *)

Lemma cumsum_from_length acc a : length (cumsum_from acc a) = length a.
Proof. revert acc. induction a; intros; simpl; [|rewrite IHa]; reflexivity. Qed.

Lemma cumsum_length a : length (cumsum a) = length a.
Proof. destruct a; simpl; [|rewrite cumsum_from_length]; reflexivity. Qed.

Lemma cdf_table_length ys : length (cdf_table ys) = length ys.
Proof. unfold cdf_table, div_scalar. now rewrite length_map, cumsum_length. Qed.

Lemma uniform_array_length low high u p k :
  length (uniform_array low high u p k) = k.
Proof. unfold uniform_array. now rewrite !length_map, length_seq. Qed.

Lemma uniform_array_item low high u p k i :
  (i < k)%nat ->
  item (uniform_array low high u p k) i
  = fadd low (fmul (fsub high low) (u (p + i)%nat)).
Proof.
  intros Hi. unfold uniform_array, item. rewrite map_map.
  rewrite (nth_indep _ nan
             ((fun j => fadd low (fmul (fsub high low) (u (p + j)%nat))) 0%nat))
    by now rewrite length_map, length_seq.
  rewrite (map_nth (fun j => fadd low (fmul (fsub high low) (u (p + j)%nat)))).
  now rewrite seq_nth.
Qed.

Lemma uniform_array_ext low high u1 p1 u2 p2 k :
  (forall i, (i < k)%nat -> u1 (p1 + i)%nat = u2 (p2 + i)%nat) ->
  uniform_array low high u1 p1 k = uniform_array low high u2 p2 k.
Proof.
  intros H. unfold uniform_array. f_equal.
  apply map_ext_in. intros i Hi. apply in_seq in Hi. apply H. lia.
Qed.

Lemma interp_from_length xp fp g x :
  length (interp_from xp fp g x) = length x.
Proof.
  revert g. induction x as [|v x IH]; intros g; [reflexivity|].
  simpl. destruct (interp_step xp fp g v) as [res j]. simpl. now rewrite IH.
Qed.

Lemma interp_length x xp fp : length (interp x xp fp) = length x.
Proof.
  unfold interp.
  destruct xp as [|xp0 [|xp1 xp]];
    [apply interp_from_length|apply length_map|apply interp_from_length].
Qed.

Lemma item_map (g : num -> num) (a : ndarray) k :
  (k < length a)%nat -> item (map g a) k = g (item a k).
Proof.
  intros H. unfold item.
  rewrite (nth_indep _ nan (g nan)) by now rewrite length_map.
  apply map_nth.
Qed.

Lemma item_map_combine (g : num * num -> num) (a b : ndarray) k :
  (k < length a)%nat -> length a = length b ->
  item (map g (combine a b)) k = g (item a k, item b k).
Proof.
  intros Ha Hb. unfold item.
  rewrite (nth_indep _ nan (g (nan, nan)))
    by (rewrite length_map, length_combine; lia).
  rewrite (map_nth g). now rewrite combine_nth by exact Hb.
Qed.

Lemma broadcast2_same_length op a b :
  length a = length b ->
  broadcast2 op a b = Some (map (fun p => op (fst p) (snd p)) (combine a b)).
Proof. intros H. unfold broadcast2. now rewrite H, Nat.eqb_refl. Qed.

Lemma diff_length a : length (diff a) = (length a - 1)%nat.
Proof.
  induction a as [|u a IH]; [reflexivity|].
  destruct a as [|v a]; [reflexivity|].
  change (diff (u :: v :: a)) with (fsub v u :: diff (v :: a)).
  simpl length in *. rewrite IH. lia.
Qed.

Lemma tail_length (a : ndarray) : length (tail a) = (length a - 1)%nat.
Proof. destruct a; simpl; lia. Qed.

Lemma removelast_length (a : ndarray) :
  length (removelast a) = (length a - 1)%nat.
Proof.
  induction a as [|u a IH]; [reflexivity|].
  destruct a as [|v a]; [reflexivity|].
  change (removelast (u :: v :: a)) with (u :: removelast (v :: a)).
  simpl length in *. rewrite IH. lia.
Qed.

(** The quadrature is defined whenever the two arrays have one length. *)
Lemma trapz_same_length y x :
  length y = length x ->
  trapz y x =
    Some (sum (div_scalar
      (map (fun p => fmul (fst p) (snd p))
         (combine (diff x)
            (map (fun p => fadd (fst p) (snd p))
               (combine (tail y) (removelast y)))))
      (of_Z 2))).
Proof.
  intros H. unfold trapz.
  rewrite broadcast2_same_length
    by now rewrite tail_length, removelast_length.
  rewrite broadcast2_same_length; [reflexivity|].
  rewrite diff_length, length_map, length_combine, tail_length,
    removelast_length. lia.
Qed.

Lemma broadcast2_defined op a b :
  match broadcast2 op a b with
  | Some _ => broadcasts (length a) (length b) = true
  | None => broadcasts (length a) (length b) = false
  end.
Proof.
  unfold broadcast2, broadcasts.
  destruct (Nat.eqb_spec (length a) (length b)) as [E|E]; [reflexivity|].
  destruct a as [|u [|u' a]], b as [|v [|v' b]]; simpl in *;
    try reflexivity; try lia; now rewrite ?orb_true_r.
Qed.

Lemma trapz_defined y x :
  match trapz y x with
  | Some _ => broadcasts (length x - 1) (length y - 1) = true
  | None => broadcasts (length x - 1) (length y - 1) = false
  end.
Proof.
  unfold trapz.
  rewrite broadcast2_same_length
    by now rewrite tail_length, removelast_length.
  set (ysum := map _ (combine (tail y) (removelast y))).
  assert (Hl : length ysum = (length y - 1)%nat).
  { unfold ysum. rewrite length_map, length_combine, tail_length,
      removelast_length. lia. }
  pose proof (broadcast2_defined fmul (diff x) ysum) as H.
  rewrite diff_length, Hl in H.
  now destruct (broadcast2 fmul (diff x) ysum).
Qed.

Lemma amin_nonempty a : is_Some (amin a) -> a <> [].
Proof. intros [v Hv] ->. discriminate. Qed.

(** ** [argsort] returns a permutation *)

Lemma insert_idx_perm a i l : Permutation (insert_idx a i l) (i :: l).
Proof.
  induction l as [|j r IH]; simpl; [reflexivity|].
  destruct (sort_lt (item a i) (item a j)); [reflexivity|].
  rewrite IH. apply perm_swap.
Qed.

Lemma fold_insert_perm a l acc :
  Permutation (fold_left (fun acc i => insert_idx a i acc) l acc) (acc ++ l).
Proof.
  revert acc. induction l as [|i l IH]; intros acc; simpl.
  - now rewrite app_nil_r.
  - rewrite IH, insert_idx_perm. simpl. apply Permutation_middle.
Qed.

Lemma argsort_perm a : Permutation (argsort a) (seq 0 (length a)).
Proof. unfold argsort. now rewrite fold_insert_perm. Qed.

Lemma argsort_in_range a :
  Forall (fun i => (i < length a)%nat) (argsort a).
Proof.
  apply List.Forall_forall. intros i Hi.
  apply (Permutation_in _ (argsort_perm a)) in Hi.
  apply in_seq in Hi. lia.
Qed.

Lemma argsort_length a : length (argsort a) = length a.
Proof. now rewrite (Permutation_length (argsort_perm a)), length_seq. Qed.

Lemma map_item_seq (a : ndarray) : map (item a) (seq 0 (length a)) = a.
Proof.
  apply nth_ext with (d := nan) (d' := nan).
  - now rewrite length_map, length_seq.
  - intros i Hi. rewrite length_map, length_seq in Hi.
    rewrite (nth_indep _ nan (item a 0%nat)) by now rewrite length_map, length_seq.
    rewrite map_nth, seq_nth by assumption. reflexivity.
Qed.

Lemma reorder_self_perm a : Permutation (reorder a a) a.
Proof.
  unfold reorder. rewrite (Permutation_map (item a) (argsort_perm a)).
  now rewrite map_item_seq.
Qed.

Lemma reorder_length a b : length (reorder a b) = length a.
Proof. unfold reorder. now rewrite length_map, argsort_length. Qed.

(** ** Symbolic runs of [inversionSampling] *)

(** The first three statements leave the cumulative table in a new array
    at the first free location. *)
Lemma inversion_table_run {B : Type} (k : loc -> M B) s y ys :
  heap s !! y = Some ys -> ys <> [] ->
  (y1 <- np_cumsum y ;; d <- getitem_last y1 ;; idiv y1 d ;;; k y1) s =
  k (length (heap s)) (set_heap s (heap s ++ [cdf_table ys])).
Proof.
  intros Hy Hne.
  rewrite (bind_ok _ _ _ _ _ (np_cumsum_run _ _ _ Hy)).
  assert (Hc : cumsum ys <> []) by (destruct ys; [contradiction|discriminate]).
  rewrite (bind_ok _ _ _ (List.last (cumsum ys) nan)
             (set_heap s (heap s ++ [cumsum ys]))).
  2:{ apply getitem_last_run; [heap_lookup|exact Hc]. }
  rewrite (bind_ok _ _ _ tt (set_heap s (heap s ++ [cdf_table ys]))).
  2:{ rewrite (idiv_run _ _ (cumsum ys)) by heap_lookup.
      unfold set_heap. simpl.
      rewrite insert_app_r_alt by lia. now rewrite Nat.sub_diag. }
  reflexivity.
Qed.

(** The whole run: the table, the draws, the interpolated values and the
    two reordered arrays are appended to the heap, in this order, and the
    fourth one is returned; a run that raises stops earlier. *)
Lemma inversionSampling_run s x y n xs ys :
  heap s !! x = Some xs -> heap s !! y = Some ys ->
  inversionSampling x y n s =
  placed1 (length (heap s)) 3
    (inversion_run xs ys n (stream s) (drawn s)) s.
Proof.
  intros Hx Hy. unfold inversionSampling, inversion_run.
  destruct (Nat.eqb_spec (length ys) 0) as [H0|H0].
  { apply length_zero_iff_nil in H0. subst ys.
    rewrite (bind_ok _ _ _ _ _ (np_cumsum_run _ _ _ Hy)).
    erewrite bind_raise by (apply getitem_last_empty; heap_lookup).
    unfold placed1, set_heap. cbn [heap stream drawn cumsum].
    now rewrite Nat.add_0_r. }
  assert (Hne : ys <> []) by (intros ->; now apply H0).
  rewrite (inversion_table_run _ _ _ _ Hy Hne).
  set (F := cdf_table ys).
  destruct (isfinite (fsub (of_Z 1) (of_Z 0))) eqn:Hunit; cbn [negb].
  2:{ erewrite bind_raise by (now apply np_random_uniform_overflow).
      unfold placed1, set_heap. cbn [heap stream drawn].
      now rewrite Nat.add_0_r. }
  destruct (Z.ltb_spec n 0) as [Hn|Hn].
  { erewrite bind_raise by (now apply np_random_uniform_neg).
    unfold placed1, set_heap. cbn [heap stream drawn].
    now rewrite Nat.add_0_r. }
  rewrite (bind_ok _ _ _ _ _
             (np_random_uniform_run _ (of_Z 0) (of_Z 1) n Hunit Hn)).
  cbn [heap stream drawn set_heap].
  set (U := uniform_array (of_Z 0) (of_Z 1) (stream s) (drawn s) (Z.to_nat n)).
  destruct (Nat.eqb_spec (length xs) (length ys)) as [Hlen|Hlen]; cbn [negb].
  2:{ erewrite bind_raise.
      2:{ eapply (np_interp_mismatch _ _ _ _ U F xs); [heap_lookup..|].
          unfold F. now rewrite cdf_table_length. }
      unfold placed1. now rewrite <- app_assoc. }
  erewrite bind_ok.
  2:{ eapply (np_interp_run _ _ _ _ U F xs); [heap_lookup..| |].
      - intros E. apply (f_equal (@length _)) in E.
        unfold F in E. rewrite cdf_table_length in E. now apply H0.
      - unfold F. now rewrite cdf_table_length. }
  cbn [heap stream drawn set_heap]. set (X := interp U F xs).
  erewrite bind_ok by (eapply (np_argsort_run _ _ X); heap_lookup).
  erewrite bind_ok.
  2:{ eapply (getitem_idx_run _ _ X); [heap_lookup|apply argsort_in_range]. }
  cbn [heap stream drawn set_heap].
  erewrite bind_ok.
  2:{ eapply (getitem_idx_run _ _ U); [heap_lookup|].
      replace (length U) with (length X); [apply argsort_in_range|].
      unfold X, U. now rewrite interp_length. }
  unfold ret, set_heap, placed1. cbn [heap stream drawn].
  rewrite !length_app. cbn [length].
  rewrite <- !app_assoc. cbn [app].
  fold (reorder X X) (reorder X U).
  do 2 f_equal. lia.
Qed.

Lemma inversion_run_placed xs ys n u p res new k :
  inversion_run xs ys n u p = (res, new, k) ->
  forall out, res = Ok out -> new !! 3%nat = Some out.
Proof.
  unfold inversion_run. intros H out ->.
  repeat case_match; simplify_eq; done.
Qed.

Lemma outcome_placed1 i res new k s :
  (forall out, res = Ok out -> new !! i = Some out) ->
  outcome (placed1 (length (heap s)) i (res, new, k) s) = res.
Proof.
  intros H. destruct res as [out|e]; [|reflexivity].
  unfold placed1, outcome, contents. cbn [heap].
  now rewrite lookup_fresh, (H out eq_refl).
Qed.

Lemma inversionSampling_outcome s x y n xs ys :
  heap s !! x = Some xs -> heap s !! y = Some ys ->
  outcome (inversionSampling x y n s) =
  fst (fst (inversion_run xs ys n (stream s) (drawn s))).
Proof.
  intros Hx Hy.
  rewrite (inversionSampling_run _ _ _ _ _ _ Hx Hy).
  destruct (inversion_run xs ys n (stream s) (drawn s)) as [[res new] k] eqn:E.
  apply outcome_placed1. exact (inversion_run_placed _ _ _ _ _ _ _ _ E).
Qed.

Lemma inversion_run_ext xs ys n u1 p1 u2 p2 :
  (forall i, (i < Z.to_nat n)%nat -> u1 (p1 + i)%nat = u2 (p2 + i)%nat) ->
  inversion_run xs ys n u1 p1 = inversion_run xs ys n u2 p2.
Proof.
  intros H. unfold inversion_run.
  now rewrite (uniform_array_ext _ _ u1 p1 u2 p2 _ H).
Qed.

(** The first array a run creates is the cumulative table. *)
Lemma inversion_run_table xs ys n u p :
  ys <> [] ->
  exists rest,
    snd (fst (inversion_run xs ys n u p)) = cdf_table ys :: rest.
Proof.
  intros Hne. unfold inversion_run.
  destruct (Nat.eqb_spec (length ys) 0) as [H0|H0].
  { apply length_zero_iff_nil in H0. contradiction. }
  repeat case_match; simpl; eauto.
Qed.

(** A run that returns takes the path of valid input. *)
Lemma inversion_run_ok xs ys n u p :
  isfinite (fsub (of_Z 1) (of_Z 0)) = true ->
  ys <> [] -> length xs = length ys -> (0 <= n)%Z ->
  let F := cdf_table ys in
  let U := uniform_array (of_Z 0) (of_Z 1) u p (Z.to_nat n) in
  let X := interp U F xs in
  inversion_run xs ys n u p =
    (Ok (reorder X X), [F; U; X; reorder X X; reorder X U], Z.to_nat n).
Proof.
  intros Hunit Hne Hlen Hn F U X. unfold inversion_run.
  destruct (Nat.eqb_spec (length ys) 0) as [H0|H0].
  { apply length_zero_iff_nil in H0. contradiction. }
  rewrite Hunit. cbn [negb].
  destruct (Z.ltb_spec n 0) as [|_]; [lia|].
  rewrite Hlen, Nat.eqb_refl. reflexivity.
Qed.

(** ** Symbolic runs of the importance samplers *)

Lemma importanceSampling_run s x f w n xs fs ws :
  heap s !! x = Some xs -> heap s !! f = Some fs -> heap s !! w = Some ws ->
  importanceSampling x f w n s =
  placed (length (heap s)) 0 4
    (importance_run xs fs ws n (stream s) (drawn s)) s.
Proof.
  intros Hx Hf Hw. unfold importanceSampling, importance_run.
  run_step (np_amin_run _ _ _ Hx).
  destruct (amin xs) as [xmin|] eqn:Emin;
    [|simpl; f_equal; apply state_eta].
  assert (Hne : xs <> []) by (apply amin_nonempty; rewrite Emin; eauto).
  run_step (np_amax_run _ _ _ Hx).
  destruct (amax xs) as [xmax|] eqn:Emax;
    [|simpl; f_equal; apply state_eta].
  run_step (np_trapz_run _ _ _ _ _ Hw Hx).
  destruct (trapz ws xs) as [norm|] eqn:Etr;
    [|simpl; f_equal; apply state_eta].
  destruct (isfinite (fsub xmax xmin)) eqn:Efin; cbn [negb];
    [|run_step (np_random_uniform_overflow s xmin xmax n Efin);
      simpl; f_equal; apply state_eta].
  destruct (Z.ltb_spec n 0) as [Hn|Hn];
    [run_step (np_random_uniform_neg s xmin xmax n Efin Hn);
     simpl; f_equal; apply state_eta|].
  run_step (np_random_uniform_run s xmin xmax n Efin Hn).
  set (X := uniform_array xmin xmax (stream s) (drawn s) (Z.to_nat n)).
  destruct (Nat.eqb_spec (length fs) (length xs)) as [Hlf|Hlf]; cbn [negb].
  2:{ unfold bind at 1.
      erewrite (np_interp_mismatch _ _ _ _ X xs fs);
        [reflexivity|heap_lookup..|exact Hlf]. }
  unfold bind at 1.
  erewrite (np_interp_run _ _ _ _ X xs fs); [|heap_lookup..|exact Hne|exact Hlf].
  cbn iota beta.
  set (FI := interp X xs fs).
  unfold bind at 1.
  erewrite (np_scalar_mul_run _ norm _ FI) by heap_lookup.
  cbn iota beta.
  set (NUM := mul_scalar norm FI).
  destruct (Nat.eqb_spec (length ws) (length xs)) as [Hlw|Hlw]; cbn [negb].
  2:{ unfold bind at 1.
      erewrite (np_interp_mismatch _ _ _ _ X xs ws);
        [|heap_lookup..|exact Hlw].
      simpl. now rewrite <- !app_assoc. }
  unfold bind at 1.
  erewrite (np_interp_run _ _ _ _ X xs ws); [|heap_lookup..|exact Hne|exact Hlw].
  cbn iota beta.
  set (WI := interp X xs ws).
  unfold bind at 1.
  erewrite (np_div_run _ _ _ NUM WI) by heap_lookup.
  destruct (broadcast2 fdiv NUM WI) as [W|]; simpl.
  - unfold ret. rewrite !length_app. simpl. rewrite <- !app_assoc. simpl.
    do 3 f_equal; lia.
  - now rewrite <- !app_assoc.
Qed.

Lemma importanceSampling5_run s x y f w n xs ys ws :
  heap s !! x = Some xs -> heap s !! y = Some ys -> heap s !! w = Some ws ->
  importanceSampling5 x y f w n s =
  placed (length (heap s)) 0 5
    (importance5_run xs ys ws n (stream s) (drawn s)) s.
Proof.
  intros Hx Hy Hw. unfold importanceSampling5, importance5_run.
  run_step (np_amin_run _ _ _ Hx).
  destruct (amin xs) as [xmin|] eqn:Emin;
    [|simpl; f_equal; apply state_eta].
  assert (Hne : xs <> []) by (apply amin_nonempty; rewrite Emin; eauto).
  run_step (np_amax_run _ _ _ Hx).
  destruct (amax xs) as [xmax|] eqn:Emax;
    [|simpl; f_equal; apply state_eta].
  run_step (np_trapz_run _ _ _ _ _ Hw Hx).
  destruct (trapz ws xs) as [norm|] eqn:Etr;
    [|simpl; f_equal; apply state_eta].
  destruct (isfinite (fsub xmax xmin)) eqn:Efin; cbn [negb];
    [|run_step (np_random_uniform_overflow s xmin xmax n Efin);
      simpl; f_equal; apply state_eta].
  destruct (Z.ltb_spec n 0) as [Hn|Hn];
    [run_step (np_random_uniform_neg s xmin xmax n Efin Hn);
     simpl; f_equal; apply state_eta|].
  run_step (np_random_uniform_run s xmin xmax n Efin Hn).
  set (X := uniform_array xmin xmax (stream s) (drawn s) (Z.to_nat n)).
  unfold bind at 1.
  erewrite (np_mul_run _ _ _ ys ws) by heap_lookup.
  destruct (broadcast2 fmul ys ws) as [YW|] eqn:Eyw; [|reflexivity].
  cbn iota beta.
  destruct (Nat.eqb_spec (length YW) (length xs)) as [Hlf|Hlf]; cbn [negb].
  2:{ unfold bind at 1.
      erewrite (np_interp_mismatch _ _ _ _ X xs YW);
        [|heap_lookup..|exact Hlf].
      simpl. now rewrite <- !app_assoc. }
  unfold bind at 1.
  erewrite (np_interp_run _ _ _ _ X xs YW); [|heap_lookup..|exact Hne|exact Hlf].
  cbn iota beta.
  set (FI := interp X xs YW).
  unfold bind at 1.
  erewrite (np_scalar_mul_run _ norm _ FI) by heap_lookup.
  cbn iota beta.
  set (NUM := mul_scalar norm FI).
  destruct (Nat.eqb_spec (length ws) (length xs)) as [Hlw|Hlw]; cbn [negb].
  2:{ unfold bind at 1.
      erewrite (np_interp_mismatch _ _ _ _ X xs ws);
        [|heap_lookup..|exact Hlw].
      simpl. now rewrite <- !app_assoc. }
  unfold bind at 1.
  erewrite (np_interp_run _ _ _ _ X xs ws); [|heap_lookup..|exact Hne|exact Hlw].
  cbn iota beta.
  set (WI := interp X xs ws).
  unfold bind at 1.
  erewrite (np_div_run _ _ _ NUM WI) by heap_lookup.
  destruct (broadcast2 fdiv NUM WI) as [W|]; simpl.
  - unfold ret. rewrite !length_app. simpl. rewrite <- !app_assoc. simpl.
    do 3 f_equal; lia.
  - now rewrite <- !app_assoc.
Qed.

Lemma importance_run_ok xs fs ws n u p xmin xmax norm :
  amin xs = Some xmin -> amax xs = Some xmax -> trapz ws xs = Some norm ->
  isfinite (fsub xmax xmin) = true -> (0 <= n)%Z ->
  length fs = length xs -> length ws = length xs ->
  let X := uniform_array xmin xmax u p (Z.to_nat n) in
  let FI := interp X xs fs in
  let NUM := mul_scalar norm FI in
  let WI := interp X xs ws in
  let W := map (fun p => fdiv (fst p) (snd p)) (combine NUM WI) in
  importance_run xs fs ws n u p =
    (Ok (X, W), [X; FI; NUM; WI; W], Z.to_nat n).
Proof.
  intros Hmin Hmax Htr Hfin Hn Hlf Hlw X FI NUM WI W.
  unfold importance_run. rewrite Hmin, Hmax, Htr, Hfin. cbn [negb].
  destruct (Z.ltb_spec n 0) as [|_]; [lia|].
  rewrite Hlf, Hlw, Nat.eqb_refl. cbn [negb].
  fold X. fold FI. fold NUM. fold WI.
  rewrite broadcast2_same_length; [reflexivity|].
  unfold NUM, mul_scalar, WI, FI. now rewrite length_map, !interp_length.
Qed.

Lemma outcome2_placed i j res new k s :
  (forall X W, res = Ok (X, W) -> new !! i = Some X /\ new !! j = Some W) ->
  outcome2 (placed (length (heap s)) i j (res, new, k) s) = res.
Proof.
  intros H. destruct res as [[X W]|e]; [|reflexivity].
  destruct (H X W eq_refl) as (HX & HW).
  unfold placed, outcome2, contents. cbn [heap].
  now rewrite !lookup_fresh, HX, HW.
Qed.

Lemma importance_run_placed xs fs ws n u p res new k :
  importance_run xs fs ws n u p = (res, new, k) ->
  forall X W, res = Ok (X, W) -> new !! 0%nat = Some X /\ new !! 4%nat = Some W.
Proof.
  unfold importance_run. intros H X W ->.
  repeat case_match; simplify_eq; done.
Qed.

Lemma importance5_run_placed xs ys ws n u p res new k :
  importance5_run xs ys ws n u p = (res, new, k) ->
  forall X W, res = Ok (X, W) -> new !! 0%nat = Some X /\ new !! 5%nat = Some W.
Proof.
  unfold importance5_run. intros H X W ->.
  repeat case_match; simplify_eq; done.
Qed.

Lemma importance_run_ext xs fs ws n u1 p1 u2 p2 :
  (forall i, (i < Z.to_nat n)%nat -> u1 (p1 + i)%nat = u2 (p2 + i)%nat) ->
  importance_run xs fs ws n u1 p1 = importance_run xs fs ws n u2 p2.
Proof.
  intros H. unfold importance_run.
  destruct (amin xs) as [xmin|], (amax xs) as [xmax|], (trapz ws xs);
    try reflexivity.
  now rewrite (uniform_array_ext xmin xmax u1 p1 u2 p2 _ H).
Qed.

Lemma importance5_run_ext xs ys ws n u1 p1 u2 p2 :
  (forall i, (i < Z.to_nat n)%nat -> u1 (p1 + i)%nat = u2 (p2 + i)%nat) ->
  importance5_run xs ys ws n u1 p1 = importance5_run xs ys ws n u2 p2.
Proof.
  intros H. unfold importance5_run.
  destruct (amin xs) as [xmin|], (amax xs) as [xmax|], (trapz ws xs);
    try reflexivity.
  now rewrite (uniform_array_ext xmin xmax u1 p1 u2 p2 _ H).
Qed.

Lemma importance5_run_product xs ys ws p n u k :
  broadcast2 fmul ys ws = Some p ->
  fst (fst (importance5_run xs ys ws n u k)) =
  fst (fst (importance_run xs p ws n u k)).
Proof.
  intros Hp. unfold importance5_run, importance_run. rewrite Hp.
  repeat case_match; simplify_eq; reflexivity.
Qed.

Lemma importanceSampling_outcome s x f w n xs fs ws :
  heap s !! x = Some xs -> heap s !! f = Some fs -> heap s !! w = Some ws ->
  outcome2 (importanceSampling x f w n s) =
  fst (fst (importance_run xs fs ws n (stream s) (drawn s))).
Proof.
  intros Hx Hf Hw.
  rewrite (importanceSampling_run _ _ _ _ _ _ _ _ Hx Hf Hw).
  destruct (importance_run xs fs ws n (stream s) (drawn s))
    as [[res new] k] eqn:E.
  apply outcome2_placed. exact (importance_run_placed _ _ _ _ _ _ _ _ _ E).
Qed.

Lemma importanceSampling5_outcome s x y f w n xs ys ws :
  heap s !! x = Some xs -> heap s !! y = Some ys -> heap s !! w = Some ws ->
  outcome2 (importanceSampling5 x y f w n s) =
  fst (fst (importance5_run xs ys ws n (stream s) (drawn s))).
Proof.
  intros Hx Hy Hw.
  rewrite (importanceSampling5_run _ _ _ f _ _ _ _ _ Hx Hy Hw).
  destruct (importance5_run xs ys ws n (stream s) (drawn s))
    as [[res new] k] eqn:E.
  apply outcome2_placed. exact (importance5_run_placed _ _ _ _ _ _ _ _ _ E).
Qed.

(** The number of draws a run of an importance sampler consumes: none
    when it raises before the draw, [n] otherwise. *)
Lemma importance_run_draws xs fs ws n u p :
  let k := snd (importance_run xs fs ws n u p) in
  (k = 0%nat \/ k = Z.to_nat n) /\
  (forall v, fst (fst (importance_run xs fs ws n u p)) = Ok v ->
     k = Z.to_nat n).
Proof.
  unfold importance_run.
  repeat case_match; simpl; split; try (intros; discriminate); auto.
Qed.

Lemma importance5_run_draws xs ys ws n u p :
  let k := snd (importance5_run xs ys ws n u p) in
  (k = 0%nat \/ k = Z.to_nat n) /\
  (forall v, fst (fst (importance5_run xs ys ws n u p)) = Ok v ->
     k = Z.to_nat n).
Proof.
  unfold importance5_run.
  repeat case_match; simpl; split; try (intros; discriminate); auto.
Qed.

End Runs.

(** * What holds in every arithmetic *)

Section Generic.
Context {Ar : Arith}.

(** ** [inversionSampling] *)

(** C9. A call of [inversionSampling] leaves every array that existed
    before the call unchanged, in particular its arguments [x] and [y]: the
    cumulative table lives in an array that did not exist before, and that
    array is the only one updated in place. *)
Theorem inversionSampling_frame s x y n xs ys :
  heap s !! x = Some xs -> heap s !! y = Some ys ->
  heap (snd (inversionSampling x y n s)) !! x = Some xs /\
  heap (snd (inversionSampling x y n s)) !! y = Some ys /\
  (forall l a, heap s !! l = Some a ->
     heap (snd (inversionSampling x y n s)) !! l = Some a) /\
  (ys <> [] ->
     heap s !! length (heap s) = None /\
     heap (snd (inversionSampling x y n s)) !! length (heap s)
       = Some (cdf_table ys)).
Proof.
  intros Hx Hy.
  rewrite (inversionSampling_run _ _ _ _ _ _ Hx Hy).
  destruct (inversion_run xs ys n (stream s) (drawn s)) as [[res new] k] eqn:E.
  cbn [placed1 snd heap].
  split; [now apply lookup_app_l_Some|].
  split; [now apply lookup_app_l_Some|].
  split; [intros l a Hl; now apply lookup_app_l_Some|].
  intros Hne. split; [apply lookup_ge_None; lia|].
  destruct (inversion_run_table xs ys n (stream s) (drawn s) Hne) as (rest & Hr).
  rewrite E in Hr. cbn [fst snd] in Hr. subst new.
  now apply list_lookup_middle.
Qed.

(** C7. Two calls of [inversionSampling] on arguments with identical
    contents and identical [n], from generator states that deliver the same
    next [n] draws, give back the same thing: the same exception, or arrays
    with identical contents. *)
Theorem inversionSampling_deterministic s1 s2 x1 y1 x2 y2 n xs ys :
  heap s1 !! x1 = Some xs -> heap s1 !! y1 = Some ys ->
  heap s2 !! x2 = Some xs -> heap s2 !! y2 = Some ys ->
  (forall i, (i < Z.to_nat n)%nat ->
     stream s1 (drawn s1 + i)%nat = stream s2 (drawn s2 + i)%nat) ->
  outcome (inversionSampling x1 y1 n s1) =
  outcome (inversionSampling x2 y2 n s2).
Proof.
  intros Hx1 Hy1 Hx2 Hy2 Hu.
  rewrite (inversionSampling_outcome _ _ _ _ _ _ Hx1 Hy1).
  rewrite (inversionSampling_outcome _ _ _ _ _ _ Hx2 Hy2).
  now rewrite (inversion_run_ext _ _ _ _ _ _ _ Hu).
Qed.

(** ** The importance samplers *)

(** C10. The five-argument [importanceSampling(x, y, f, w, n)] never reads
    [f]: two calls with the same [x], [y], [w] and [n], from generator
    states that deliver the same next [n] draws, give back identical
    samples and weights (or the same exception), whatever is passed as [f]
    and whatever the arrays other than [x], [y] and [w] contain. *)
Theorem importanceSampling5_ignores_f s1 s2 x y f1 f2 w n xs ys ws :
  heap s1 !! x = Some xs -> heap s1 !! y = Some ys ->
  heap s1 !! w = Some ws ->
  heap s2 !! x = Some xs -> heap s2 !! y = Some ys ->
  heap s2 !! w = Some ws ->
  (forall i, (i < Z.to_nat n)%nat ->
     stream s1 (drawn s1 + i)%nat = stream s2 (drawn s2 + i)%nat) ->
  outcome2 (importanceSampling5 x y f1 w n s1) =
  outcome2 (importanceSampling5 x y f2 w n s2).
Proof.
  intros Hx1 Hy1 Hw1 Hx2 Hy2 Hw2 Hu.
  rewrite (importanceSampling5_outcome _ _ _ f1 _ _ _ _ _ Hx1 Hy1 Hw1).
  rewrite (importanceSampling5_outcome _ _ _ f2 _ _ _ _ _ Hx2 Hy2 Hw2).
  now rewrite (importance5_run_ext _ _ _ _ _ _ _ _ Hu).
Qed.

(** X8. The five-argument variant is the four-argument one applied to the
    product table [y * w]: whenever the product is defined, calling
    [importanceSampling(x, y, f, w, n)] gives the samples and weights (or
    the exception) of [importanceSampling(x, y * w, w, n)] on the same
    draws. *)
Theorem importanceSampling5_as_product s1 s2 x1 y f w1 x2 t w2 n xs ys ws p :
  heap s1 !! x1 = Some xs -> heap s1 !! y = Some ys ->
  heap s1 !! w1 = Some ws ->
  broadcast2 fmul ys ws = Some p ->
  heap s2 !! x2 = Some xs -> heap s2 !! t = Some p ->
  heap s2 !! w2 = Some ws ->
  (forall i, (i < Z.to_nat n)%nat ->
     stream s1 (drawn s1 + i)%nat = stream s2 (drawn s2 + i)%nat) ->
  outcome2 (importanceSampling5 x1 y f w1 n s1) =
  outcome2 (importanceSampling x2 t w2 n s2).
Proof.
  intros Hx1 Hy Hw1 Hp Hx2 Ht Hw2 Hu.
  rewrite (importanceSampling5_outcome _ _ _ f _ _ _ _ _ Hx1 Hy Hw1).
  rewrite (importanceSampling_outcome _ _ _ _ _ _ _ _ Hx2 Ht Hw2).
  rewrite (importance5_run_product _ _ _ _ _ _ _ Hp).
  now rewrite (importance_run_ext _ _ _ _ _ _ _ _ Hu).
Qed.

Lemma placed_frame base i j r s :
  exists new k,
    snd (placed base i j r s) =
      {| heap := heap s ++ new; stream := stream s;
         drawn := (drawn s + k)%nat |} /\
    new = snd (fst r) /\ k = snd r.
Proof. destruct r as [[res new] k]. now exists new, k. Qed.

Lemma placed_ok base i j r s v :
  fst (placed base i j r s) = Ok v -> exists v', fst (fst r) = Ok v'.
Proof.
  destruct r as [[[v'|e] new] k]; simpl; [eauto|discriminate].
Qed.

(** X7. Neither importance sampler changes an array that existed before
    the call, its arguments included: the final state is the initial one
    with new arrays appended to the heap and with the generator advanced,
    by [n] draws when the call returns and by [n] or no draws when it
    raises. *)
Theorem importance_samplers_frame s x y f w n xs ys fs ws :
  heap s !! x = Some xs -> heap s !! y = Some ys ->
  heap s !! f = Some fs -> heap s !! w = Some ws ->
  (forall l a, heap s !! l = Some a ->
     heap (snd (importanceSampling x f w n s)) !! l = Some a) /\
  (forall l a, heap s !! l = Some a ->
     heap (snd (importanceSampling5 x y f w n s)) !! l = Some a) /\
  (exists new k,
     snd (importanceSampling x f w n s) =
       {| heap := heap s ++ new; stream := stream s;
          drawn := (drawn s + k)%nat |} /\
     (k = 0%nat \/ k = Z.to_nat n) /\
     (forall v, fst (importanceSampling x f w n s) = Ok v ->
        k = Z.to_nat n)) /\
  (exists new k,
     snd (importanceSampling5 x y f w n s) =
       {| heap := heap s ++ new; stream := stream s;
          drawn := (drawn s + k)%nat |} /\
     (k = 0%nat \/ k = Z.to_nat n) /\
     (forall v, fst (importanceSampling5 x y f w n s) = Ok v ->
        k = Z.to_nat n)).
Proof.
  intros Hx Hy Hf Hw.
  rewrite (importanceSampling_run _ _ _ _ _ _ _ _ Hx Hf Hw).
  rewrite (importanceSampling5_run _ _ _ f _ _ _ _ _ Hx Hy Hw).
  set (r4 := importance_run xs fs ws n (stream s) (drawn s)).
  set (r5 := importance5_run xs ys ws n (stream s) (drawn s)).
  destruct (placed_frame (length (heap s)) 0 4 r4 s) as (new4 & k4 & E4 & _ & K4).
  destruct (placed_frame (length (heap s)) 0 5 r5 s) as (new5 & k5 & E5 & _ & K5).
  destruct (importance_run_draws xs fs ws n (stream s) (drawn s)) as (D4 & O4).
  destruct (importance5_run_draws xs ys ws n (stream s) (drawn s)) as (D5 & O5).
  fold r4 in D4, O4. fold r5 in D5, O5.
  rewrite <- K4 in D4, O4. rewrite <- K5 in D5, O5.
  split; [intros l a Hl; rewrite E4; now apply lookup_app_l_Some|].
  split; [intros l a Hl; rewrite E5; now apply lookup_app_l_Some|].
  split.
  - exists new4, k4. split; [exact E4|]. split; [exact D4|].
    intros v Hv. destruct (placed_ok _ _ _ _ _ _ Hv) as (v' & Hv').
    exact (O4 v' Hv').
  - exists new5, k5. split; [exact E5|]. split; [exact D5|].
    intros v Hv. destruct (placed_ok _ _ _ _ _ _ Hv) as (v' & Hv').
    exact (O5 v' Hv').
Qed.

(** *** The quadrature in the spec's words *)

Lemma nth_diff (x : ndarray) i :
  (S i < length x)%nat ->
  nth i (diff x) nan = fsub (item x (S i)) (item x i).
Proof.
  revert i. induction x as [|u x IH]; intros i Hi; [simpl in Hi; lia|].
  destruct x as [|v x]; [simpl in Hi; lia|].
  change (diff (u :: v :: x)) with (fsub v u :: diff (v :: x)).
  destruct i as [|i]; [reflexivity|].
  cbn [nth]. rewrite IH by (simpl in *; lia). reflexivity.
Qed.

Lemma nth_tail (y : ndarray) i : nth i (tail y) nan = item y (S i).
Proof. destruct y; [now destruct i|reflexivity]. Qed.

Lemma nth_removelast (y : ndarray) i :
  (S i < length y)%nat -> nth i (removelast y) nan = item y i.
Proof.
  revert i. induction y as [|u y IH]; intros i Hi; [simpl in Hi; lia|].
  destruct y as [|v y]; [simpl in Hi; lia|].
  change (removelast (u :: v :: y)) with (u :: removelast (v :: y)).
  destruct i as [|i]; [reflexivity|].
  cbn [nth]. rewrite IH by (simpl in *; lia). reflexivity.
Qed.

(** [np.trapz] adds up, for each cell of the grid, its width times the
    mean of the two tabulated values. *)
Lemma trapz_spec ws xs :
  length ws = length xs ->
  trapz ws xs = Some (sum (spec_trapz_terms xs ws)).
Proof.
  intros Hlen. rewrite (trapz_same_length _ _ Hlen). do 2 f_equal.
  unfold div_scalar, spec_trapz_terms.
  apply nth_ext with (d := nan) (d' := nan).
  { rewrite !length_map, !length_combine, diff_length, length_map,
      length_combine, tail_length, removelast_length, length_seq. lia. }
  intros i Hi.
  rewrite !length_map, !length_combine, diff_length, length_map,
    length_combine, tail_length, removelast_length in Hi.
  fold (item (map (fun v => fdiv v (of_Z 2))
           (map (fun p => fmul (fst p) (snd p))
              (combine (diff xs)
                 (map (fun p => fadd (fst p) (snd p))
                    (combine (tail ws) (removelast ws)))))) i).
  rewrite item_map
    by (rewrite length_map, length_combine, diff_length, length_map,
          length_combine, tail_length, removelast_length; lia).
  rewrite item_map_combine;
    [|rewrite diff_length; lia
     |rewrite diff_length, length_map, length_combine, tail_length,
        removelast_length; lia].
  rewrite item_map_combine;
    [|rewrite tail_length; lia|now rewrite tail_length, removelast_length].
  cbn [fst snd]. unfold item at 1 2 3.
  rewrite nth_diff, nth_tail, nth_removelast by lia.
  set (g := fun j => fdiv (fmul (fsub (item xs (S j)) (item xs j))
                             (fadd (item ws (S j)) (item ws j))) (of_Z 2)).
  rewrite (nth_indep _ nan (g 0%nat)) by (rewrite length_map, length_seq; lia).
  rewrite (map_nth g), seq_nth by lia. reflexivity.
Qed.

(** What [importanceSampling] returns on arguments that pass its checks:
    the samples and the weights, entry by entry. *)
Lemma importanceSampling_returns s x f w n xs fs ws xmin xmax :
  heap s !! x = Some xs -> heap s !! f = Some fs -> heap s !! w = Some ws ->
  length fs = length xs -> length ws = length xs -> (0 <= n)%Z ->
  amin xs = Some xmin -> amax xs = Some xmax ->
  isfinite (fsub xmax xmin) = true ->
  let norm := sum (spec_trapz_terms xs ws) in
  let X := uniform_array xmin xmax (stream s) (drawn s) (Z.to_nat n) in
  let FI := interp X xs fs in
  let WI := interp X xs ws in
  exists W,
    outcome2 (importanceSampling x f w n s) = Ok (X, W) /\
    length X = Z.to_nat n /\ length W = Z.to_nat n /\
    forall k, (k < Z.to_nat n)%nat ->
      item X k
        = fadd xmin (fmul (fsub xmax xmin) (stream s (drawn s + k)%nat)) /\
      item W k = fdiv (fmul norm (item FI k)) (item WI k).
Proof.
  intros Hx Hf Hw Hlf Hlw Hn Hmin Hmax Hfin norm X FI WI.
  rewrite (importanceSampling_outcome _ _ _ _ _ _ _ _ Hx Hf Hw).
  rewrite (importance_run_ok xs fs ws n _ _ xmin xmax norm Hmin Hmax
             (trapz_spec ws xs Hlw) Hfin Hn Hlf Hlw).
  fold X FI WI. cbn [fst].
  assert (HlX : length X = Z.to_nat n) by apply uniform_array_length.
  assert (HlF : length FI = Z.to_nat n)
    by (unfold FI; now rewrite interp_length).
  assert (HlW : length WI = Z.to_nat n)
    by (unfold WI; now rewrite interp_length).
  eexists. split; [reflexivity|]. split; [exact HlX|].
  split.
  { unfold mul_scalar. rewrite length_map, length_combine, length_map. lia. }
  intros k Hk. split; [now apply uniform_array_item|].
  rewrite item_map_combine;
    [|unfold mul_scalar; rewrite length_map; lia
     |unfold mul_scalar; rewrite length_map; lia].
  cbn [fst snd]. unfold mul_scalar. now rewrite item_map by lia.
Qed.

(** ** The estimate of pi *)

Lemma pi_loop_S xv yv n :
  pi_loop xv yv (S n) = pi_step xv yv (pi_loop xv yv n) n.
Proof. unfold pi_loop. now rewrite seq_S, fold_left_app. Qed.

Lemma hits_S xv yv n :
  hits xv yv (S n) =
  hits xv yv n ++ (if inside_circle (item xv n) (item yv n) then [n] else []).
Proof.
  unfold hits. rewrite seq_S, List.filter_app. simpl.
  now destruct (inside_circle (item xv n) (item yv n)).
Qed.

Lemma hits_bound xv yv n : (length (hits xv yv n) <= n)%nat.
Proof.
  unfold hits. etransitivity; [apply List.filter_length_le|].
  now rewrite length_seq.
Qed.

(** The loop invariant: [counter] is 1 added once per hit, [pi_arr] has
    one entry per hit, and entry [k] is computed from the count [k + 1]
    and the index of hit [k]. *)
Lemma pi_loop_closed xv yv n :
  exists arr,
    pi_loop xv yv n = (count (length (hits xv yv n)), arr) /\
    length arr = length (hits xv yv n) /\
    forall k, (k < length arr)%nat ->
      nth k arr nan =
      fdiv (fmul (of_Z 4) (count (S k)))
           (of_Z (Z.of_nat (nth k (hits xv yv n) 0%nat) + 1)).
Proof.
  induction n as [|n (arr & Hrun & Hlen & Hk)].
  - exists []. split; [reflexivity|]. split; [reflexivity|].
    intros k Hk. simpl in Hk. lia.
  - rewrite pi_loop_S, hits_S, Hrun. unfold pi_step.
    destruct (inside_circle (item xv n) (item yv n)).
    + eexists. split.
      * rewrite length_app, Nat.add_comm. reflexivity.
      * split; [rewrite !length_app, Hlen; reflexivity|].
        intros k Hlt. rewrite length_app in Hlt. simpl in Hlt.
        destruct (Nat.eq_dec k (length arr)) as [->|Hne].
        -- rewrite app_nth2, Nat.sub_diag by lia.
           rewrite Hlen at 2. rewrite app_nth2, Nat.sub_diag by lia.
           cbn [nth count]. now rewrite Hlen.
        -- rewrite !app_nth1 by lia. apply Hk. lia.
    + exists arr. rewrite app_nil_r.
      split; [reflexivity|]. split; assumption.
Qed.

Lemma estimate_pi_run s r n :
  isfinite (fsub r (of_Z 0)) = true -> (0 <= n)%Z ->
  let X := uniform_array (of_Z 0) r (stream s) (drawn s) (Z.to_nat n) in
  let Y := uniform_array (of_Z 0) r (stream s)
             (drawn s + Z.to_nat n) (Z.to_nat n) in
  estimate_pi r n s =
    (Ok (pi_loop X Y (Z.to_nat n)),
     {| heap := heap s ++ [X; Y];
        stream := stream s;
        drawn := (drawn s + Z.to_nat n + Z.to_nat n)%nat |}).
Proof.
  intros Hr Hn X Y. unfold estimate_pi.
  rewrite (bind_ok _ _ _ _ _ (np_random_uniform_run s (of_Z 0) r n Hr Hn)).
  fold X.
  rewrite (bind_ok _ _ _ _ _ (np_random_uniform_run _ (of_Z 0) r n Hr Hn)).
  cbn [heap stream drawn]. fold Y.
  erewrite (bind_ok _ _ _ X) by (apply load_run; heap_lookup).
  erewrite (bind_ok _ _ _ Y) by (apply load_run; heap_lookup).
  unfold ret. now rewrite <- app_assoc.
Qed.

(** X11. The loop records one estimate per point that passes the test:
    with [i_k] the index of the [k]-th such point, entry [k] of [pi_arr]
    is [4 * c / (i_k + 1)] for the counter [c] after [k + 1] additions of
    1, each operation as the arithmetic performs it; point [i] pairs draw
    [i] (for [x]) with draw [n + i] (for [y]), and the final counter is 1
    added once per entry. *)
Theorem estimate_pi_entries s r n :
  isfinite (fsub r (of_Z 0)) = true -> (0 <= n)%Z ->
  let X := uniform_array (of_Z 0) r (stream s) (drawn s) (Z.to_nat n) in
  let Y := uniform_array (of_Z 0) r (stream s)
             (drawn s + Z.to_nat n) (Z.to_nat n) in
  let idx := hits X Y (Z.to_nat n) in
  exists arr s',
    estimate_pi r n s = (Ok (count (length arr), arr), s') /\
    drawn s' = (drawn s + 2 * Z.to_nat n)%nat /\
    length arr = length idx /\
    (forall k, (k < length arr)%nat ->
       nth k arr nan =
       fdiv (fmul (of_Z 4) (count (S k)))
            (of_Z (Z.of_nat (nth k idx 0%nat) + 1))) /\
    (forall i, (i < Z.to_nat n)%nat ->
       item X i = fadd (of_Z 0)
                    (fmul (fsub r (of_Z 0)) (stream s (drawn s + i)%nat)) /\
       item Y i = fadd (of_Z 0)
                    (fmul (fsub r (of_Z 0))
                       (stream s (drawn s + Z.to_nat n + i)%nat))).
Proof.
  intros Hr Hn X Y idx.
  rewrite (estimate_pi_run s r n Hr Hn). fold X Y.
  destruct (pi_loop_closed X Y (Z.to_nat n)) as (arr & -> & Hlen & Hk).
  fold idx in Hlen, Hk. fold idx.
  exists arr. eexists.
  split; [rewrite Hlen; reflexivity|]. cbn [drawn].
  split; [lia|]. split; [exact Hlen|]. split; [exact Hk|].
  intros i Hi. unfold X, Y. now rewrite !uniform_array_item by exact Hi.
Qed.

(** ** The log-density [lnProb] *)

(** X12. [lnProb] on a position and a mean of one size [d] returns a value
    exactly when the inverse covariance has [d] columns and [d] rows; in
    every other case the dot products raise [ValueError]. *)
Theorem lnProb_shapes x mu icov :
  length x = length mu ->
  (ncols icov = length x /\ length (rows icov) = length x ->
   exists v, lnProb x mu icov = Ok v) /\
  (~ (ncols icov = length x /\ length (rows icov) = length x) ->
   lnProb x mu icov = Raise ValueError).
Proof.
  intros Hlen. unfold lnProb.
  rewrite (broadcast2_same_length fsub x mu Hlen).
  set (diff := map _ (combine x mu)).
  assert (Hd : length diff = length x).
  { unfold diff. rewrite length_map, length_combine. lia. }
  unfold matvec. rewrite Hd.
  destruct (Nat.eqb_spec (ncols icov) (length x)) as [E1|E1].
  - unfold dot. rewrite Hd, length_map.
    match goal with
    | |- context [Nat.eqb ?a ?b] => destruct (Nat.eqb_spec a b) as [E2|E2]
    end.
    + split; [intros _; eexists; reflexivity|].
      intros Hn. exfalso. apply Hn. split; [exact E1|symmetry; exact E2].
    + split; [|reflexivity]. intros (_ & E). exfalso. apply E2.
      symmetry. exact E.
  - split; [|reflexivity]. intros (E & _). congruence.
Qed.

End Generic.

(** * What holds in every IEEE arithmetic *)

Section Laws.
Context {Ar : Arith} {I : Ieee Ar}.

(** ** The sort order *)

Lemma flt_numbers a b :
  flt a b = true -> isnan a = false /\ isnan b = false.
Proof.
  intros H. split.
  - destruct (isnan a) eqn:E; [|reflexivity].
    apply isnan_eq in E. subst a. now rewrite flt_nan_l in H.
  - destruct (isnan b) eqn:E; [|reflexivity].
    apply isnan_eq in E. subst b. now rewrite flt_nan_r in H.
Qed.

Lemma flt_asym a b : flt a b = true -> flt b a = false.
Proof.
  intros H. destruct (flt b a) eqn:E; [|reflexivity].
  apply flt_fle in E. apply flt_not_fle in H. congruence.
Qed.









(** ** The lookup *)

Lemma itemZ_last (a : ndarray) :
  a <> [] -> itemZ a (Z.of_nat (length a) - 1) = List.last a nan.
Proof.
  intros Hne. unfold itemZ, item.
  replace (Z.to_nat (Z.of_nat (length a) - 1)) with (length a - 1)%nat by lia.
  clear Hne. induction a as [|u a IH]; [reflexivity|].
  destruct a as [|v a]; [reflexivity|].
  change (List.last (u :: v :: a) nan) with (List.last (v :: a) nan).
  rewrite <- IH. simpl. now rewrite Nat.sub_0_r.
Qed.

(** Keys outside the table: beyond the last entry the value is [fp[-1]],
    and otherwise before the first entry it is [fp[0]], whatever the
    guess. *)
Lemma interp_step_clamp xp fp g u :
  xp <> [] ->
  (flt (List.last xp nan) u = true ->
   fst (interp_step xp fp g u) = List.last fp nan) /\
  (flt (List.last xp nan) u = false -> flt u (item xp 0) = true ->
   fst (interp_step xp fp g u) = item fp 0).
Proof.
  intros Hne. unfold interp_step, binary_search_with_guess.
  rewrite (itemZ_last xp Hne).
  assert (Hlen : (0 < Z.of_nat (length xp))%Z).
  { destruct xp; [contradiction|simpl; lia]. }
  split.
  - intros H. destruct (flt_numbers _ _ H) as (_ & ->). rewrite H. cbn [fst].
    destruct (Z.eqb_spec (Z.of_nat (length xp)) (-1)) as [E|_]; [lia|].
    now rewrite Z.eqb_refl.
  - intros H H0. destruct (flt_numbers _ _ H0) as (-> & _).
    rewrite H. change (itemZ xp 0) with (item xp 0). now rewrite H0.
Qed.



(** ** The lookup on an increasing grid *)

Lemma flt_trans a b c : flt a b = true -> flt b c = true -> flt a c = true.
Proof.
  intros Hab Hbc. destruct (flt a c) eqn:E; [reflexivity|].
  destruct (flt_numbers _ _ Hab) as (Ha & _).
  destruct (flt_numbers _ _ Hbc) as (_ & Hc).
  pose proof (fle_total c a Hc Ha E) as Hca.
  pose proof (fle_trans c a b Hca (flt_fle _ _ Hab)) as Hcb.
  rewrite (flt_not_fle _ _ Hbc) in Hcb. discriminate.
Qed.

Lemma increasing_lt (arr : ndarray) i j :
  increasing arr -> (i < j < length arr)%nat ->
  flt (item arr i) (item arr j) = true.
Proof.
  intros Hinc. induction j as [|j IH]; intros Hij; [lia|].
  destruct (Nat.eq_dec i j) as [->|Hne].
  - apply Hinc. lia.
  - apply flt_trans with (item arr j); [apply IH; lia|apply Hinc; lia].
Qed.

Lemma increasing_number (arr : ndarray) i :
  increasing arr -> (2 <= length arr)%nat -> (i < length arr)%nat ->
  isnan (item arr i) = false.
Proof.
  intros Hinc Hlen Hi. destruct i as [|i].
  - apply (flt_numbers _ _ (Hinc 0%nat ltac:(lia))).
  - apply (flt_numbers _ _ (Hinc i ltac:(lia))).
Qed.

Lemma fle_refl a : isnan a = false -> fle a a = true.
Proof.
  intros Ha. apply fle_total; try assumption.
  destruct (flt a a) eqn:E; [|reflexivity].
  pose proof (flt_asym _ _ E). congruence.
Qed.

(** On an increasing grid the entries that are at most the key come
    first. *)
Lemma below_antitone (arr : ndarray) key i j :
  increasing arr -> (i <= j < length arr)%nat ->
  fle (item arr j) key = true -> fle (item arr i) key = true.
Proof.
  intros Hinc Hij H. destruct (Nat.eq_dec i j) as [->|Hne]; [exact H|].
  apply fle_trans with (item arr j); [|exact H].
  apply flt_fle, increasing_lt; [exact Hinc|lia].
Qed.

Lemma above_monotone (arr : ndarray) key i j :
  increasing arr -> (i <= j < length arr)%nat ->
  fle (item arr i) key = false -> fle (item arr j) key = false.
Proof.
  intros Hinc Hij H. destruct (fle (item arr j) key) eqn:E; [|reflexivity].
  rewrite (below_antitone arr key i j Hinc Hij E) in H. discriminate.
Qed.

(** The bisection returns the boundary between the entries that are at
    most the key and the others, when it lies between [imin] and [imax]. *)
Lemma bisect_boundary (arr : ndarray) key fuel imin imax :
  increasing arr ->
  (0 <= imin <= imax)%Z -> (imax <= Z.of_nat (length arr))%Z ->
  (imax - imin <= Z.of_nat fuel)%Z ->
  (forall i, (0 <= i < imin)%Z -> fle (itemZ arr i) key = true) ->
  (forall i, (imax <= i < Z.of_nat (length arr))%Z ->
     fle (itemZ arr i) key = false) ->
  let r := bisect fuel key arr imin imax in
  (imin <= r <= imax)%Z /\
  (forall i, (0 <= i < r)%Z -> fle (itemZ arr i) key = true) /\
  (forall i, (r <= i < Z.of_nat (length arr))%Z ->
     fle (itemZ arr i) key = false).
Proof.
  intros Hinc. revert imin imax.
  induction fuel as [|fuel IH]; intros imin imax Hmm Hmax Hfuel Hlo Hhi.
  - cbn [bisect]. assert (imin = imax) by lia. subst imax.
    repeat split; try lia; assumption.
  - cbn [bisect]. cbv zeta.
    destruct (Z.ltb_spec imin imax) as [Hlt|Hge].
    2:{ assert (imin = imax) by lia. subst imax.
        repeat split; try lia; assumption. }
    rewrite Z.shiftr_div_pow2 by lia. change (2 ^ 1)%Z with 2%Z.
    set (imid := (imin + (imax - imin) / 2)%Z).
    assert (Hmid : (imin <= imid < imax)%Z).
    { unfold imid. pose proof (Z.div_pos (imax - imin) 2 ltac:(lia) ltac:(lia)).
      pose proof (Z.div_lt_upper_bound (imax - imin) 2 (imax - imin)
                    ltac:(lia) ltac:(lia)). lia. }
    destruct (fle (itemZ arr imid) key) eqn:E.
    + destruct (IH (imid + 1)%Z imax) as (R1 & R2 & R3); try lia.
      * intros i Hi. unfold itemZ in *.
        apply below_antitone with (Z.to_nat imid); [exact Hinc|lia|exact E].
      * exact Hhi.
      * repeat split; try lia; assumption.
    + destruct (IH imin imid) as (R1 & R2 & R3); try lia.
      * exact Hlo.
      * intros i Hi. unfold itemZ in *.
        apply above_monotone with (Z.to_nat imid); [exact Hinc|lia|exact E].
      * repeat split; try lia; assumption.
Qed.

Lemma linear_search_boundary key (rest : ndarray) i :
  let r := linear_search key rest i in
  (i <= r <= i + Z.of_nat (length rest))%Z /\
  (forall k, (Z.of_nat k < r - i)%Z -> fle (nth k rest nan) key = true) /\
  ((r < i + Z.of_nat (length rest))%Z ->
   fle (nth (Z.to_nat (r - i)) rest nan) key = false).
Proof.
  revert i. induction rest as [|a rest IH]; intros i; cbn [linear_search].
  - cbn [length]. repeat split; lia.
  - destruct (fle a key) eqn:E.
    + destruct (IH (i + 1)%Z) as (R1 & R2 & R3). cbv zeta in *.
      cbn [length]. repeat split; try lia.
      * intros [|k] Hk; [exact E|]. cbn [nth]. apply R2. lia.
      * intros Hr.
        replace (Z.to_nat (linear_search key rest (i + 1) - i))
          with (S (Z.to_nat (linear_search key rest (i + 1) - (i + 1))))
          by lia.
        cbn [nth]. apply R3. lia.
    + cbn [length]. repeat split; try lia.
      intros _. rewrite Z.sub_diag. exact E.
Qed.

(** The cell of the key: the index [j] that the lookup returns for a key
    within an increasing grid has [arr[j] <= key], and [key < arr[j + 1]]
    when there is a next entry. *)
Lemma search_cell (arr : ndarray) key g :
  increasing arr -> (2 <= length arr)%nat -> isnan key = false ->
  flt (List.last arr nan) key = false -> flt key (item arr 0) = false ->
  let j := binary_search_with_guess key arr g in
  (0 <= j < Z.of_nat (length arr))%Z /\
  fle (itemZ arr j) key = true /\
  ((j + 1 < Z.of_nat (length arr))%Z ->
   flt key (itemZ arr (j + 1)) = true).
Proof.
  intros Hinc Hlen Hkey Hlast Hfirst.
  assert (Hne : arr <> []) by (destruct arr; [simpl in Hlen; lia|discriminate]).
  assert (Hnum : forall i, (0 <= i < Z.of_nat (length arr))%Z ->
            isnan (itemZ arr i) = false).
  { intros i Hi. apply increasing_number; [assumption..|lia]. }
  assert (Hge : forall i, (0 <= i < Z.of_nat (length arr))%Z ->
            flt key (itemZ arr i) = false -> fle (itemZ arr i) key = true).
  { intros i Hi H. apply fle_total; auto. }
  assert (Hlt : forall i, (0 <= i < Z.of_nat (length arr))%Z ->
            fle (itemZ arr i) key = false -> flt key (itemZ arr i) = true).
  { intros i Hi H. destruct (flt key (itemZ arr i)) eqn:E; [reflexivity|].
    rewrite Hge in H; [discriminate|exact Hi|exact E]. }
  assert (H0 : fle (itemZ arr 0) key = true).
  { apply Hge; [lia|exact Hfirst]. }
  assert (Hup : forall i k, (0 <= i <= k)%Z -> (k < Z.of_nat (length arr))%Z ->
            fle (itemZ arr i) key = false -> fle (itemZ arr k) key = false).
  { intros i k Hi Hk H. unfold itemZ in *.
    apply above_monotone with (Z.to_nat i); [exact Hinc|lia|exact H]. }
  assert (Hdown : forall i k, (0 <= i <= k)%Z -> (k < Z.of_nat (length arr))%Z ->
            fle (itemZ arr k) key = true -> fle (itemZ arr i) key = true).
  { intros i k Hi Hk H. unfold itemZ in *.
    apply below_antitone with (Z.to_nat k); [exact Hinc|lia|exact H]. }
  unfold binary_search_with_guess. cbv zeta.
  rewrite (itemZ_last arr Hne), Hlast.
  change (itemZ arr 0) with (item arr 0) in *. rewrite Hfirst.
  change (item arr 0) with (itemZ arr 0) in *.
  set (len := Z.of_nat (length arr)) in *.
  destruct (Z.leb_spec len 4) as [Hsmall|Hbig].
  { destruct (linear_search_boundary key (tail arr) 1) as (R1 & R2 & R3).
    cbv zeta in *.
    assert (Htl : Z.of_nat (length (tail arr)) = (len - 1)%Z).
    { unfold len. destruct arr; [contradiction|]. cbn [tail length]. lia. }
    assert (Hnth : forall k, nth k (tail arr) nan = itemZ arr (Z.of_nat k + 1)).
    { intros k. unfold itemZ, item.
      replace (Z.to_nat (Z.of_nat k + 1)) with (S k) by lia.
      destruct arr; [contradiction|]. reflexivity. }
    set (r := linear_search key (tail arr) 1) in *.
    rewrite Htl in *. split; [lia|]. split.
    - destruct (Z.eq_dec r 1%Z) as [E|Hr].
      + replace (r - 1)%Z with 0%Z by lia. exact H0.
      + pose proof (R2 (Z.to_nat (r - 2))) as R2'. rewrite Hnth in R2'.
        replace (Z.of_nat (Z.to_nat (r - 2)) + 1)%Z with (r - 1)%Z in R2'
          by lia.
        apply R2'. lia.
    - intros Hr. rewrite Hnth in R3.
      replace (Z.of_nat (Z.to_nat (r - 1)) + 1)%Z with (r - 1 + 1)%Z in R3
        by lia.
      apply Hlt; [lia|]. apply R3. lia. }
  set (g1 := if (len - 3 <? g)%Z then (len - 3)%Z else g).
  set (g2 := if (g1 <? 1)%Z then 1%Z else g1).
  assert (Hg : (1 <= g2 <= len - 3)%Z).
  { unfold g2, g1. destruct (Z.ltb_spec (len - 3) g);
      [destruct (Z.ltb_spec (len - 3) 1)|destruct (Z.ltb_spec g 1)]; lia. }
  clearbody g2. clear g1.
  destruct (flt key (itemZ arr g2)) eqn:Eg.
  - destruct (flt key (itemZ arr (g2 - 1))) eqn:Eg1.
    + set (imin := if (8 <? g2)%Z && fle (itemZ arr (g2 - 8)) key
                   then (g2 - 8)%Z else 0%Z).
      assert (Himin : (0 <= imin <= g2 - 1)%Z /\
                (forall i, (0 <= i < imin)%Z -> fle (itemZ arr i) key = true)).
      { unfold imin. destruct (Z.ltb_spec 8 g2) as [H8|H8]; cbn [andb].
        - destruct (fle (itemZ arr (g2 - 8)) key) eqn:E8.
          + split; [lia|]. intros i Hi.
            apply Hdown with (g2 - 8)%Z; [lia|lia|exact E8].
          + split; [lia|]. intros i Hi. lia.
        - split; [lia|]. intros i Hi. lia. }
      destruct Himin as (Himin & Hlo). clearbody imin.
      destruct (bisect_boundary arr key (length arr) imin (g2 - 1) Hinc)
        as (R1 & R2 & R3); try (fold len; lia); try exact Hlo.
      { intros i Hi. fold len in Hi. apply Hup with (g2 - 1)%Z; try lia.
        apply (flt_not_fle _ _ Eg1). }
      cbv zeta in *. set (r := bisect (length arr) key arr imin (g2 - 1)) in *.
      fold len in R3.
      assert (Hr : (1 <= r)%Z).
      { destruct (Z.eq_dec r 0%Z) as [E|E]; [|lia].
        rewrite (R3 0%Z) in H0; [discriminate|lia]. }
      split; [lia|]. split; [apply R2; lia|].
      intros _. replace (r - 1 + 1)%Z with r by lia.
      apply Hlt; [lia|]. apply R3. lia.
    + split; [lia|]. split; [apply Hge; [lia|exact Eg1]|].
      intros _. replace (g2 - 1 + 1)%Z with g2 by lia. exact Eg.
  - destruct (flt key (itemZ arr (g2 + 1))) eqn:Eg1.
    + split; [lia|]. split; [apply Hge; [lia|exact Eg]|].
      intros _. exact Eg1.
    + destruct (flt key (itemZ arr (g2 + 2))) eqn:Eg2.
      * split; [lia|]. split; [apply Hge; [lia|exact Eg1]|].
        intros _. replace (g2 + 1 + 1)%Z with (g2 + 2)%Z by lia. exact Eg2.
      * set (imax := if (g2 <? len - 8 - 1)%Z && flt key (itemZ arr (g2 + 8))
                     then (g2 + 8)%Z else len).
        assert (Himax : (g2 + 2 <= imax <= len)%Z /\
                  (forall i, (imax <= i < len)%Z ->
                     fle (itemZ arr i) key = false)).
        { unfold imax. destruct (Z.ltb_spec g2 (len - 8 - 1)) as [H8|H8];
            cbn [andb].
          - destruct (flt key (itemZ arr (g2 + 8))) eqn:E8.
            + split; [lia|]. intros i Hi.
              apply Hup with (g2 + 8)%Z; [lia|lia|].
              apply (flt_not_fle _ _ E8).
            + split; [lia|]. intros i Hi. lia.
          - split; [lia|]. intros i Hi. lia. }
        destruct Himax as (Himax & Hhi). clearbody imax.
        destruct (bisect_boundary arr key (length arr) (g2 + 2) imax Hinc)
          as (R1 & R2 & R3); try (fold len; lia); try exact Hhi.
        { intros i Hi. apply Hdown with (g2 + 2)%Z; [lia|fold len; lia|].
          apply Hge; [lia|exact Eg2]. }
        cbv zeta in *.
        set (r := bisect (length arr) key arr (g2 + 2) imax) in *.
        fold len in R3.
        split; [lia|]. split; [apply R2; lia|].
        intros Hr. replace (r - 1 + 1)%Z with r by lia.
        apply Hlt; [lia|]. apply R3. lia.
Qed.


(** On an increasing grid of at least two points, [np.interp] at a key
    that is a number is the linear interpolation of the table. *)
Lemma interp_step_lerp xp fp g t :
  increasing xp -> (2 <= length xp)%nat -> isnan t = false ->
  spec_lerp xp fp t (fst (interp_step xp fp g t)).
Proof.
  intros Hinc Hlen Hkey.
  assert (Hne : xp <> []) by (destruct xp; [simpl in Hlen; lia|discriminate]).
  destruct (interp_step_clamp xp fp g t Hne) as (Hr & Hl).
  destruct (flt (List.last xp nan) t) eqn:Elast.
  { left. split; [exact Elast|]. now apply Hr. }
  destruct (flt t (item xp 0)) eqn:Efirst.
  { right. left. split; [exact Efirst|]. now apply Hl. }
  clear Hr Hl. right. right.
  destruct (search_cell xp t g Hinc Hlen Hkey Elast Efirst) as (Hj & Hle & Hnext).
  cbv zeta in *. unfold interp_step. rewrite Hkey. cbn [fst].
  set (j := binary_search_with_guess t xp g) in *.
  destruct (Z.eqb_spec j (-1)) as [E|_]; [lia|].
  destruct (Z.eqb_spec j (Z.of_nat (length xp))) as [E|_]; [lia|].
  exists (Z.to_nat j). split; [lia|].
  unfold interp_at, itemZ in *.
  destruct (Z.eqb_spec j (Z.of_nat (length xp) - 1)) as [E|Hnl].
  - left. split; [|reflexivity].
    destruct (feqb (item xp (Z.to_nat j)) t) eqn:Eq; [reflexivity|].
    rewrite feqb_sym in Eq. pose proof (fle_lt _ _ Hle Eq) as Hlt.
    pose proof (itemZ_last xp Hne) as Hlast. unfold itemZ in Hlast.
    rewrite <- E in Hlast. rewrite Hlast in Hlt. congruence.
  - destruct (feqb (item xp (Z.to_nat j)) t) eqn:Eq.
    + left. split; reflexivity.
    + right. split; [lia|]. split.
      * apply fle_lt; [exact Hle|now rewrite feqb_sym].
      * split; [|reflexivity].
        replace (S (Z.to_nat j)) with (Z.to_nat (j + 1)) by lia.
        apply Hnext. lia.
Qed.

Lemma interp_from_lerp xp fp g U k :
  increasing xp -> (2 <= length xp)%nat ->
  (k < length U)%nat -> isnan (item U k) = false ->
  spec_lerp xp fp (item U k) (item (interp_from xp fp g U) k).
Proof.
  intros Hinc Hlen. revert g k.
  induction U as [|u U IH]; intros g k Hk Hnum.
  { simpl in Hk. lia. }
  cbn [interp_from].
  pose proof (interp_step_lerp xp fp g u Hinc Hlen) as Hs.
  destruct (interp_step xp fp g u) as [res j]. cbn [fst] in Hs.
  destruct k as [|k]; [now apply Hs|].
  apply (IH j k); [simpl in Hk; lia|exact Hnum].
Qed.

Lemma interp_lerp xp fp U k :
  increasing xp -> (2 <= length xp)%nat ->
  (k < length U)%nat -> isnan (item U k) = false ->
  spec_lerp xp fp (item U k) (item (interp U xp fp) k).
Proof.
  intros Hinc Hlen Hk Hnum. unfold interp.
  destruct xp as [|xp0 [|xp1 xp]]; [simpl in Hlen; lia..|].
  now apply interp_from_lerp.
Qed.

(** ** A table of NaN *)

Lemma itemZ_repeat_nan m i : itemZ (repeat nan m) i = nan.
Proof.
  unfold itemZ, item. generalize (Z.to_nat i). intros k. revert k.
  induction m as [|m IH]; intros [|k]; simpl; auto.
Qed.

Lemma bisect_nan fuel key m imin imax :
  bisect fuel key (repeat nan m) imin imax = imin.
Proof.
  revert imin imax. induction fuel as [|fuel IH]; intros imin imax;
    [reflexivity|].
  cbn [bisect]. destruct (imin <? imax)%Z; [|reflexivity].
  rewrite itemZ_repeat_nan, fle_nan_l. apply IH.
Qed.

(** Against a table of NaN the lookup of a number stops inside the table,
    before its last entry. *)
Lemma search_nan_table key m g :
  (2 <= m)%nat ->
  let j := binary_search_with_guess key (repeat nan m) g in
  (0 <= j <= Z.of_nat m - 2)%Z.
Proof.
  intros Hm. unfold binary_search_with_guess. cbv zeta.
  rewrite repeat_length, !itemZ_repeat_nan, flt_nan_l, !flt_nan_r.
  rewrite !bisect_nan.
  destruct (Z.leb_spec (Z.of_nat m) 4) as [H4|H4].
  - destruct m as [|[|m]]; [lia|lia|]. cbn [repeat tail linear_search].
    rewrite fle_nan_l. lia.
  - repeat match goal with
           | |- context [(?a <? ?b)%Z] => destruct (Z.ltb_spec a b)
           end; lia.
Qed.

Lemma item_repeat_nan m i : item (repeat nan m) i = nan.
Proof.
  unfold item. revert i.
  induction m as [|m IH]; intros [|k]; simpl; auto.
Qed.

Lemma interp_at_nan_table fp key m j :
  (0 <= j <= Z.of_nat m - 2)%Z ->
  feqb (item fp (Z.to_nat j)) (item fp (S (Z.to_nat j))) = false ->
  interp_at (repeat nan m) fp key j = nan.
Proof.
  intros Hj Hfp. unfold interp_at, chord.
  rewrite repeat_length, !itemZ_repeat_nan, !item_repeat_nan.
  destruct (Z.eqb_spec j (Z.of_nat m - 1)) as [E|_]; [lia|].
  rewrite feqb_nan_l, fsub_nan_l, fdiv_nan_r, !fmul_nan_l, !fadd_nan_l.
  now rewrite isnan_nan, Hfp.
Qed.


Lemma interp_from_nan_table m xs g U :
  (2 <= m)%nat -> length xs = m -> increasing xs ->
  interp_from (repeat nan m) xs g U = repeat nan (length U).
Proof.
  intros Hm Hlen Hinc. revert g.
  induction U as [|u U IH]; intros g; [reflexivity|].
  cbn [interp_from length repeat]. unfold interp_step.
  destruct (isnan u) eqn:Eu.
  { apply isnan_eq in Eu. subst u. now rewrite IH. }
  pose proof (search_nan_table u m g Hm) as Hj. cbv zeta in Hj.
  set (j := binary_search_with_guess u (repeat nan m) g) in *.
  rewrite IH. f_equal.
  rewrite repeat_length.
  destruct (Z.eqb_spec j (-1)) as [E|_]; [lia|].
  destruct (Z.eqb_spec j (Z.of_nat m)) as [E|_]; [lia|].
  apply interp_at_nan_table; [exact Hj|].
  apply flt_neq, Hinc. lia.
Qed.

Lemma cumsum_from_zero acc l :
  is_zero acc -> Forall is_zero l -> Forall is_zero (cumsum_from acc l).
Proof.
  intros Ha H. revert acc Ha.
  induction H as [|v l Hv _ IH]; intros acc Ha; simpl; constructor.
  - now apply zero_add.
  - apply IH. now apply zero_add.
Qed.

Lemma cumsum_zero l : Forall is_zero l -> Forall is_zero (cumsum l).
Proof.
  intros H. destruct H as [|v l Hv H]; simpl; constructor; [exact Hv|].
  now apply cumsum_from_zero.
Qed.

Lemma last_Forall (P : num -> Prop) (l : ndarray) :
  l <> [] -> Forall P l -> P (List.last l nan).
Proof.
  intros Hne H. induction H as [|v l Hv H IH]; [contradiction|].
  destruct l as [|w l]; [exact Hv|].
  change (List.last (v :: w :: l) nan) with (List.last (w :: l) nan).
  apply IH. discriminate.
Qed.

(** The table of a density that is identically zero holds NaN only. *)
Lemma cdf_table_zero ys :
  ys <> [] -> Forall is_zero ys -> cdf_table ys = repeat nan (length ys).
Proof.
  intros Hne Hz. unfold cdf_table.
  pose proof (cumsum_zero ys Hz) as Hc.
  assert (Hcne : cumsum ys <> []) by (destruct ys; [contradiction|discriminate]).
  pose proof (last_Forall is_zero _ Hcne Hc) as Ht.
  rewrite <- (cumsum_length ys).
  revert Ht. generalize (List.last (cumsum ys) nan). intros t Ht.
  clear Hcne. induction Hc as [|c C Hc0 _ IH]; [reflexivity|].
  cbn [div_scalar map length repeat]. f_equal; [|exact IH].
  now apply zero_div_zero.
Qed.

Lemma all_equal_repeat (a : ndarray) v :
  Forall (fun e => e = v) a -> a = repeat v (length a).
Proof. induction 1; simpl; congruence. Qed.

Lemma reorder_constant v k : reorder (repeat v k) (repeat v k) = repeat v k.
Proof.
  set (a := repeat v k).
  assert (Ha : Forall (fun e => e = v) a).
  { apply List.Forall_forall. intros e He. now apply repeat_spec in He. }
  pose proof (Permutation_Forall (Permutation_sym (reorder_self_perm a)) Ha)
    as Hr.
  rewrite (all_equal_repeat _ v Hr), reorder_length.
  unfold a. now rewrite repeat_length.
Qed.

(** * Claims about [inversionSampling] *)

(** C3, as the code has it.  When the tabulated density is identically
    zero (on a strictly increasing grid of at least two points)
    [inversionSampling] raises nothing: the division of the prefix sums by
    their final entry 0 gives a table of NaN, and the call returns [n]
    samples that are all NaN. *)
Theorem inversionSampling_zero_density s x y n xs ys :
  heap s !! x = Some xs -> heap s !! y = Some ys ->
  length xs = length ys -> (2 <= length xs)%nat -> increasing xs ->
  Forall is_zero ys -> (0 <= n)%Z ->
  outcome (inversionSampling x y n s) = Ok (repeat nan (Z.to_nat n)).
Proof.
  intros Hx Hy Hlen Hm Hinc Hz Hn.
  assert (Hne : ys <> []) by (intros ->; simpl in Hlen; lia).
  rewrite (inversionSampling_outcome _ _ _ _ _ _ Hx Hy).
  rewrite (inversion_run_ok xs ys n _ _ unit_range Hne Hlen Hn). cbn [fst].
  rewrite (cdf_table_zero ys Hne Hz), <- Hlen.
  set (U := uniform_array (of_Z 0) (of_Z 1) (stream s) (drawn s) (Z.to_nat n)).
  assert (E : interp U (repeat nan (length xs)) xs = repeat nan (Z.to_nat n)).
  { rewrite <- (uniform_array_length (of_Z 0) (of_Z 1) (stream s) (drawn s)
                  (Z.to_nat n)).
    fold U. unfold interp.
    destruct (length xs) as [|[|m]] eqn:El; [lia|lia|].
    cbn [repeat]. change (nan :: nan :: repeat nan m) with (repeat nan (S (S m))).
    apply interp_from_nan_table; [lia|exact El|exact Hinc]. }
  rewrite E. now rewrite reorder_constant.
Qed.



(** X15. On a grid of one point every sample is that point, whatever the
    tabulated value is (zero, NaN and infinities included): the table of
    one entry never reaches the interpolation. *)
Theorem inversionSampling_one_point s x y n x0 y0 :
  heap s !! x = Some [x0] -> heap s !! y = Some [y0] -> (0 <= n)%Z ->
  outcome (inversionSampling x y n s) = Ok (repeat x0 (Z.to_nat n)).
Proof.
  intros Hx Hy Hn.
  rewrite (inversionSampling_outcome _ _ _ _ _ _ Hx Hy).
  rewrite (inversion_run_ok [x0] [y0] n _ _ unit_range) by (done || lia).
  cbn [fst].
  set (U := uniform_array (of_Z 0) (of_Z 1) (stream s) (drawn s) (Z.to_nat n)).
  assert (E : interp U (cdf_table [y0]) [x0] = repeat x0 (Z.to_nat n)).
  { rewrite <- (uniform_array_length (of_Z 0) (of_Z 1) (stream s) (drawn s)
                  (Z.to_nat n)).
    fold U. change (cdf_table [y0]) with [fdiv y0 y0]. unfold interp.
    induction U as [|u U IH]; [reflexivity|].
    cbn [map length repeat]. f_equal; [|exact IH].
    cbn [item nth List.last].
    destruct (flt u (fdiv y0 y0)); [reflexivity|].
    now destruct (flt (fdiv y0 y0) u). }
  rewrite E. now rewrite reorder_constant.
Qed.

(** *** The weights *)

(** C2, as the code has it.  When the grid is not empty, the tables have
    its length, [n] is not negative and the range [max(x) - min(x)] is
    finite, [importanceSampling] returns: the norm is the trapezoidal
    quadrature of [w] over [x], sample [k] is
    [min(x) + (max(x) - min(x)) * u_k] for the standard uniform draw
    [u_k], and weight [k] is [norm * f(x_k) / w(x_k)] with [np.interp]'s
    values of the two tables at sample [k]; every operation is the
    arithmetic's, rounded where the arithmetic rounds.  On an increasing
    grid of at least two points [np.interp]'s value at a sample that is a
    number is the linear interpolation of the table. *)
Theorem importanceSampling_spec s x f w n xs fs ws xmin xmax :
  heap s !! x = Some xs -> heap s !! f = Some fs -> heap s !! w = Some ws ->
  length fs = length xs -> length ws = length xs -> (0 <= n)%Z ->
  amin xs = Some xmin -> amax xs = Some xmax ->
  isfinite (fsub xmax xmin) = true ->
  let norm := sum (spec_trapz_terms xs ws) in
  let X := uniform_array xmin xmax (stream s) (drawn s) (Z.to_nat n) in
  let FI := interp X xs fs in
  let WI := interp X xs ws in
  exists W,
    outcome2 (importanceSampling x f w n s) = Ok (X, W) /\
    length X = Z.to_nat n /\ length W = Z.to_nat n /\
    forall k, (k < Z.to_nat n)%nat ->
      item X k
        = fadd xmin (fmul (fsub xmax xmin) (stream s (drawn s + k)%nat)) /\
      item W k = fdiv (fmul norm (item FI k)) (item WI k) /\
      ((2 <= length xs)%nat -> increasing xs -> isnan (item X k) = false ->
       spec_lerp xs fs (item X k) (item FI k) /\
       spec_lerp xs ws (item X k) (item WI k)).
Proof.
  intros Hx Hf Hw Hlf Hlw Hn Hmin Hmax Hfin norm X FI WI.
  destruct (importanceSampling_returns s x f w n xs fs ws xmin xmax
              Hx Hf Hw Hlf Hlw Hn Hmin Hmax Hfin)
    as (W & Hrun & HlX & HlW & Hk).
  exists W. split; [exact Hrun|]. split; [exact HlX|]. split; [exact HlW|].
  intros k Hlt. destruct (Hk k Hlt) as (Hs & Hwk).
  split; [exact Hs|]. split; [exact Hwk|].
  intros H2 Hinc Hnum. fold X in HlX.
  split; apply interp_lerp; try assumption; lia.
Qed.

(** *** The cumulative table *)





(** * Claims about the importance samplers *)

(** C6, as the code has it.  When the grid is not empty, the tables have
    its length, [n] is not negative and the range of the grid is finite,
    [importanceSampling] returns whatever the proposal table holds, and
    wherever the interpolated proposal value [w(x_k)] is zero the weight
    of [x_k] in the returned array is not finite: an infinity or NaN. *)
Theorem importanceSampling_zero_proposal s x f w n xs fs ws xmin xmax :
  heap s !! x = Some xs -> heap s !! f = Some fs -> heap s !! w = Some ws ->
  length fs = length xs -> length ws = length xs -> (0 <= n)%Z ->
  amin xs = Some xmin -> amax xs = Some xmax ->
  isfinite (fsub xmax xmin) = true ->
  let X := uniform_array xmin xmax (stream s) (drawn s) (Z.to_nat n) in
  exists W,
    outcome2 (importanceSampling x f w n s) = Ok (X, W) /\
    length W = Z.to_nat n /\
    forall k, (k < Z.to_nat n)%nat ->
      is_zero (item (interp X xs ws) k) ->
      isfinite (item W k) = false.
Proof.
  intros Hx Hf Hw Hlf Hlw Hn Hmin Hmax Hfin X.
  rewrite (importanceSampling_outcome _ _ _ _ _ _ _ _ Hx Hf Hw).
  rewrite (importance_run_ok xs fs ws n _ _ xmin xmax _ Hmin Hmax
             (trapz_same_length ws xs Hlw) Hfin Hn Hlf Hlw).
  fold X. cbn [fst].
  assert (HlX : length X = Z.to_nat n) by apply uniform_array_length.
  eexists. split; [reflexivity|].
  split.
  { unfold mul_scalar.
    rewrite length_map, length_combine, length_map, !interp_length. lia. }
  intros k Hk Hz.
  rewrite item_map_combine;
    [|unfold mul_scalar; rewrite length_map, interp_length; lia
     |unfold mul_scalar; now rewrite length_map, !interp_length].
  cbn [fst snd]. now apply div_zero.
Qed.

(** * Argument checks of both samplers *)

Lemma status_placed1 base i res new k s :
  status (placed1 base i (res, new, k) s) s =
  (match res with Ok _ => Ok tt | Raise e => Raise e end, k).
Proof.
  unfold status, placed1. simpl. f_equal; [now destruct res|lia].
Qed.

Lemma status_placed base i j res new k s :
  status (placed base i j (res, new, k) s) s =
  (match res with Ok _ => Ok tt | Raise e => Raise e end, k).
Proof.
  unfold status, placed. simpl. f_equal; [now destruct res|lia].
Qed.

Lemma inversionSampling_status s x y n xs ys :
  heap s !! x = Some xs -> heap s !! y = Some ys ->
  status (inversionSampling x y n s) s =
  inversion_checks (length xs) (length ys) n.
Proof.
  intros Hx Hy.
  rewrite (inversionSampling_run _ _ _ _ _ _ Hx Hy).
  destruct (inversion_run xs ys n (stream s) (drawn s)) as [[res new] k] eqn:E.
  rewrite status_placed1.
  unfold inversion_run, inversion_checks in *. rewrite unit_range in E.
  cbn [negb] in E.
  repeat case_match; simplify_eq; reflexivity.
Qed.

Lemma importanceSampling_status s x f w n xs fs ws :
  heap s !! x = Some xs -> heap s !! f = Some fs ->
  heap s !! w = Some ws ->
  status (importanceSampling x f w n s) s =
  importance_checks (length xs) (length fs) (length ws) (range_finite xs) n.
Proof.
  intros Hx Hf Hw.
  rewrite (importanceSampling_run _ _ _ _ _ _ _ _ Hx Hf Hw).
  destruct (importance_run xs fs ws n (stream s) (drawn s))
    as [[res new] k] eqn:E.
  rewrite status_placed.
  unfold importance_run, importance_checks, range_finite in *.
  destruct xs as [|x0 xr]; [now inversion E|].
  change (Nat.eqb (length (x0 :: xr)) 0) with false. cbv iota.
  cbn [amin amax] in *.
  pose proof (trapz_defined ws (x0 :: xr)) as Htr.
  destruct (trapz ws (x0 :: xr)) as [norm|]; rewrite Htr; cbn [negb];
    [|now inversion E].
  destruct (isfinite _); cbn [negb] in *; [|now inversion E].
  destruct (n <? 0)%Z; [now inversion E|].
  destruct (Nat.eqb (length fs) (length (x0 :: xr))); cbn [negb] in *;
    [|now inversion E].
  destruct (Nat.eqb_spec (length ws) (length (x0 :: xr))) as [Hlw|Hlw];
    cbn [negb] in *; [|now inversion E].
  rewrite broadcast2_same_length in E; [now inversion E|].
  unfold mul_scalar. now rewrite length_map, !interp_length.
Qed.

(** C5, as the code has it.  Neither sampler validates its arguments; what
    is rejected is what NumPy rejects on the way, and a grid that is not
    strictly increasing is accepted like any other.  For
    [inversionSampling]: an empty [y] raises [IndexError] and a negative
    [n] raises [ValueError], both before any draw; lengths of [x] and [y]
    that differ raise [ValueError] in the interpolation, after the [n]
    draws have been consumed; everything else, [n = 0] included, returns.
    For [importanceSampling]: an empty [x], tables [x], [w] that the
    quadrature cannot broadcast and a negative [n] raise [ValueError], and
    a range [max(x) - min(x)] that is not finite raises [OverflowError],
    all before any draw; a table [f] or [w] not of the length of [x]
    raises [ValueError] in the interpolation, after the [n] draws;
    everything else returns. *)
Theorem sampler_argument_checks s x y f w n xs ys fs ws :
  heap s !! x = Some xs -> heap s !! y = Some ys ->
  heap s !! f = Some fs -> heap s !! w = Some ws ->
  status (inversionSampling x y n s) s =
    inversion_checks (length xs) (length ys) n /\
  status (importanceSampling x f w n s) s =
    importance_checks (length xs) (length fs) (length ws)
      (range_finite xs) n.
Proof.
  intros Hx Hy Hf Hw. split.
  - now apply inversionSampling_status.
  - now apply importanceSampling_status.
Qed.

End Laws.

(** * The two arithmetics are IEEE arithmetics *)

(** ** binary64 *)

Lemma SFcompare_antisym a b :
  SFcompare b a = option_map CompOpp (SFcompare a b).
Proof.
  destruct a as [sa|sa| |sa ma ea], b as [sb|sb| |sb mb eb];
    try reflexivity;
    try (destruct sa; reflexivity); try (destruct sb; reflexivity);
    try (destruct sa, sb; reflexivity).
  cbn [SFcompare option_map].
  rewrite (Z.compare_antisym ea eb).
  destruct sa, sb; try reflexivity;
    destruct (ea ?= eb)%Z; cbn [CompOpp]; try reflexivity;
    rewrite (Pos.compare_cont_antisym ma mb Eq); cbn [CompOpp];
    rewrite ?CompOpp_involutive; reflexivity.
Qed.

(** The order of the floats that are not NaN, as a rank followed by a
    comparison within the rank. *)
Lemma SFleb_trans a b c :
  SFleb a b = true -> SFleb b c = true -> SFleb a c = true.
Proof.
  unfold SFleb.
  destruct a as [sa|sa| |sa ma ea], b as [sb|sb| |sb mb eb],
    c as [sc|sc| |sc mc ec]; cbn [SFcompare];
    try discriminate; try reflexivity;
    try (destruct sa; try discriminate; try reflexivity;
         destruct sb; try discriminate; try reflexivity;
         destruct sc; try discriminate; reflexivity);
    try (destruct sa; try discriminate; try reflexivity;
         destruct sc; try discriminate; try reflexivity;
         destruct sb; try discriminate; reflexivity);
    try (destruct sb; try discriminate; try reflexivity;
         destruct sc; try discriminate; try reflexivity;
         destruct sa; try discriminate; reflexivity);
    try (destruct sb; try discriminate; try reflexivity;
         destruct sa; try discriminate; try reflexivity;
         destruct sc; try discriminate; reflexivity).
  all: rewrite ?Pos.compare_cont_spec; cbn [Pos.switch_Eq].
  all: destruct sa, sb, sc; try discriminate; try reflexivity.
  all: destruct (Z.compare_spec ea eb), (Z.compare_spec eb ec),
         (Z.compare_spec ea ec); subst; try discriminate; try reflexivity;
         try lia.
  all: destruct (Pos.compare_spec ma mb), (Pos.compare_spec mb mc),
         (Pos.compare_spec ma mc); subst; cbn [CompOpp];
         try discriminate; try reflexivity; try lia.
Qed.

Lemma SFdiv_self s m e :
  SFdiv prec emax (S754_finite s m e) (S754_finite s m e) = dyadic 1 0.
Proof.
  unfold SFdiv, SFdiv_core_binary.
  replace (Zdigits2 (Z.pos m) + e - (Zdigits2 (Z.pos m) + e))%Z with 0%Z by lia.
  replace (e - e)%Z with 0%Z by lia.
  change (Z.min (fexp prec emax 0) 0) with (-53)%Z.
  change (0 - -53)%Z with 53%Z. cbv iota.
  rewrite Z.shiftl_mul_pow2 by lia.
  pose proof (Z_div_mod (Z.pos m * 2 ^ 53) (Z.pos m) ltac:(lia)) as H.
  destruct (Z.div_eucl (Z.pos m * 2 ^ 53) (Z.pos m)) as [q r].
  destruct H as (H & Hr).
  assert (Hq : q = (2 ^ 53)%Z).
  { rewrite (Z.div_unique_pos _ _ q r Hr H), Z.mul_comm.
    apply Z.div_mul. lia. }
  subst q. assert (r = 0%Z) by lia. subst r.
  replace (new_location (Z.pos m) 0) with loc_Exact
    by (unfold new_location; now destruct (Z.even (Z.pos m))).
  now destruct s.
Qed.

Lemma b64_zero_inv a :
  SFeqb a (dyadic 0 0) = true -> exists s, a = S754_zero s.
Proof.
  change (dyadic 0 0) with (S754_zero false).
  destruct a as [s|s| |s m e]; [eauto| | |];
    try destruct s; discriminate.
Qed.

Lemma b64_ieee : Ieee b64.
Proof.
  constructor; cbn [num nan of_Z fneg fadd fsub fmul fdiv fsquare flt fle feqb
                    isnan isfinite b64].
  - reflexivity.
  - reflexivity.
  - intros a. now destruct a.
  - intros a. reflexivity.
  - intros a. now destruct a.
  - intros a. reflexivity.
  - intros a. now destruct a.
  - intros a. reflexivity.
  - intros a. now destruct a.
  - intros a. reflexivity.
  - intros a. now destruct a.
  - intros a. reflexivity.
  - intros a. unfold SFltb. now destruct a.
  - intros a. reflexivity.
  - intros a. unfold SFleb. now destruct a.
  - intros a. reflexivity.
  - intros a. unfold SFeqb. now destruct a.
  - intros a b Ha Hb. unfold SFltb, SFleb.
    rewrite (SFcompare_antisym a b).
    destruct (SFcompare a b) as [[| |]|] eqn:E; cbn [option_map CompOpp];
      try reflexivity; try discriminate.
    destruct a, b; try discriminate; simpl in E; discriminate.
  - intros a b. unfold SFltb, SFleb.
    now destruct (SFcompare a b) as [[| |]|].
  - intros a b. unfold SFltb, SFleb. rewrite (SFcompare_antisym a b).
    now destruct (SFcompare a b) as [[| |]|].
  - apply SFleb_trans.
  - intros a b. unfold SFltb, SFeqb.
    now destruct (SFcompare a b) as [[| |]|].
  - intros a b Ha Hb.
    destruct (b64_zero_inv a Ha) as (sa & ->).
    destruct (b64_zero_inv b Hb) as (sb & ->).
    now destruct sa, sb.
  - intros a b Ha Hb.
    destruct (b64_zero_inv a Ha) as (sa & ->).
    destruct (b64_zero_inv b Hb) as (sb & ->).
    reflexivity.
  - intros a b Hb.
    destruct (b64_zero_inv b Hb) as (sb & ->).
    now destruct a.
  - intros a Hf Hz.
    destruct a as [sa|sa| |sa ma ea]; try discriminate.
    now rewrite SFdiv_self.
  - intros a b. unfold SFltb, SFleb, SFeqb. rewrite (SFcompare_antisym a b).
    now destruct (SFcompare a b) as [[| |]|].
  - intros a b. unfold SFeqb. rewrite (SFcompare_antisym a b).
    now destruct (SFcompare a b) as [[| |]|].
Qed.

(** ** Exact arithmetic *)

Local Open Scope Q_scope.

























(** * The estimate of pi in exact arithmetic *)

Section Exact.
#[local] Existing Instance exact.






End Exact.

(** * Concrete runs *)

(** A property of the entries of a short array, index by index. *)
Ltac by_index :=
  let j := fresh "j" in
  let Hj := fresh "Hj" in
  intros j Hj;
  repeat (destruct j as [|j]; [vm_compute; reflexivity|]);
  exfalso; vm_compute in Hj; lia.

(** The run traced by hand: the table is [1/4, 3/4, 1, 1], the draws
    [1/2, 1/8, 7/8] are mapped to [1/2, 0, 3/2], and the samples come
    back sorted. *)
Example demo_inversion_run :
  outcome (inversionSampling 0%nat 1%nat 3 demo_inversion)
  = Ok [dyadic 0 0; dyadic 1 (-1); dyadic 3 (-1)].
Proof. vm_compute. reflexivity. Qed.

(** With the proposal [1, 2, 1] the quadrature is 3 and both draws, at
    [1/2] and [3/2], get the weight [3 * 1 / (3/2) = 2]. *)
Example demo_importance_run :
  outcome2 (importanceSampling 0%nat 1%nat 2%nat 2 demo_importance)
  = Ok ([dyadic 1 (-1); dyadic 3 (-1)], [dyadic 2 0; dyadic 2 0]).
Proof. vm_compute. reflexivity. Qed.

Lemma inversionSampling_frame_witness :
  heap (snd (inversionSampling 0%nat 1%nat 3 demo_inversion)) !! 0%nat
    = Some (zs [0; 1; 2; 3]%Z) /\
  heap (snd (inversionSampling 0%nat 1%nat 3 demo_inversion)) !! 1%nat
    = Some (zs [1; 2; 1; 0]%Z).
Proof.
  destruct (inversionSampling_frame demo_inversion 0%nat 1%nat 3
              (zs [0; 1; 2; 3]%Z) (zs [1; 2; 1; 0]%Z) eq_refl eq_refl)
    as (Hx & Hy & _).
  split; [exact Hx|exact Hy].
Defined.

Lemma inversionSampling_deterministic_witness :
  outcome (inversionSampling 0%nat 1%nat 3 demo_inversion) =
  outcome (inversionSampling 0%nat 1%nat 3
             (mkstate (heap demo_inversion ++ [zs [5]%Z])
                (draws_of (Ar := b64)
                   [dyadic 1 (-1); dyadic 1 (-3); dyadic 7 (-3); dyadic 1 (-2)]
                   (dyadic 0 0)))).
Proof.
  apply (inversionSampling_deterministic demo_inversion _ 0%nat 1%nat
           0%nat 1%nat 3 (zs [0; 1; 2; 3]%Z) (zs [1; 2; 1; 0]%Z));
    try reflexivity.
  by_index.
Defined.




(** C3: on the zero density the call returns three NaN samples and raises
    nothing. *)
Lemma zero_density_returns_nan :
  outcome (inversionSampling 0%nat 1%nat 3 demo_zero)
    = Ok [S754_nan; S754_nan; S754_nan] /\
  forall e, outcome (inversionSampling 0%nat 1%nat 3 demo_zero) <> Raise e.
Proof. split; [vm_compute; reflexivity|intros e; vm_compute; discriminate]. Qed.

Lemma inversionSampling_zero_density_witness :
  outcome (inversionSampling 0%nat 1%nat 3 demo_zero)
  = Ok (repeat S754_nan 3).
Proof.
  apply (inversionSampling_zero_density (I := b64_ieee) demo_zero
           0%nat 1%nat 3 (zs [0; 1; 2; 3]%Z) (zs [0; 0; 0; 0]%Z)).
  - reflexivity.
  - reflexivity.
  - reflexivity.
  - simpl. lia.
  - by_index.
  - repeat constructor.
  - discriminate.
Defined.



(** C2: the grid [-2^1023, 2^1023] increases strictly and is finite, the
    proposal [1, 1] is positive and [n = 1], but the range of the grid
    overflows and [np.random.uniform] raises. *)
Lemma importanceSampling_range_overflow :
  increasing wide /\
  Forall (fun v => isfinite v = true) wide /\
  Forall (fun v => flt (of_Z 0) v = true) (zs [1; 1]%Z) /\
  outcome2 (importanceSampling 0%nat 1%nat 2%nat 1 demo_range)
    = Raise OverflowError.
Proof.
  split; [by_index|].
  split; [repeat constructor|].
  split; [repeat constructor|].
  vm_compute. reflexivity.
Qed.

Lemma importanceSampling_spec_witness :
  exists W,
    outcome2 (importanceSampling 0%nat 1%nat 2%nat 2 demo_importance)
      = Ok ([dyadic 1 (-1); dyadic 3 (-1)], W) /\
    length W = 2%nat /\
    spec_lerp (zs [0; 1; 2]%Z) (zs [1; 2; 1]%Z) (dyadic 1 (-1)) (dyadic 3 (-1)).
Proof.
  destruct (importanceSampling_spec (I := b64_ieee) demo_importance
              0%nat 1%nat 2%nat 2
              (zs [0; 1; 2]%Z) (zs [1; 1; 1]%Z) (zs [1; 2; 1]%Z)
              (dyadic 0 0) (dyadic 2 0))
    as (W & Hrun & _ & Hlen & Hk).
  - reflexivity.
  - reflexivity.
  - reflexivity.
  - reflexivity.
  - reflexivity.
  - discriminate.
  - reflexivity.
  - reflexivity.
  - reflexivity.
  - exists W. split; [exact Hrun|]. split; [exact Hlen|].
    destruct (Hk 0%nat) as (_ & _ & Hl); [simpl; lia|].
    apply Hl.
    + simpl. lia.
    + by_index.
    + reflexivity.
Defined.

(** C6: with the proposal table [0, 0, 1] the draw at [1/2] has
    [w(x_k) = 0] and [f(x_k) = 1]; the call returns, and the weight in the
    returned array is plus infinity. *)
Lemma zero_proposal_returns_inf :
  interp (f64 [dyadic 1 (-1)]) (zs [0; 1; 2]%Z) (zs [0; 0; 1]%Z) = [dyadic 0 0] /\
  interp (f64 [dyadic 1 (-1)]) (zs [0; 1; 2]%Z) (zs [1; 1; 1]%Z) = [dyadic 1 0] /\
  outcome2 (importanceSampling 0%nat 1%nat 3%nat 1 demo_importance)
    = Ok ([dyadic 1 (-1)], [S754_infinity false]).
Proof. repeat split; vm_compute; reflexivity. Qed.

Lemma importanceSampling_zero_proposal_witness :
  exists W,
    outcome2 (importanceSampling 0%nat 1%nat 3%nat 1 demo_importance)
      = Ok ([dyadic 1 (-1)], W) /\
    isfinite (item W 0) = false.
Proof.
  destruct (importanceSampling_zero_proposal (I := b64_ieee) demo_importance
              0%nat 1%nat 3%nat 1
              (zs [0; 1; 2]%Z) (zs [1; 1; 1]%Z) (zs [0; 0; 1]%Z)
              (dyadic 0 0) (dyadic 2 0))
    as (W & Hrun & _ & Hw).
  - reflexivity.
  - reflexivity.
  - reflexivity.
  - reflexivity.
  - reflexivity.
  - discriminate.
  - reflexivity.
  - reflexivity.
  - reflexivity.
  - exists W. split; [exact Hrun|].
    apply Hw; [simpl; lia|reflexivity].
Defined.

Lemma importanceSampling5_ignores_f_witness :
  outcome2 (importanceSampling5 0%nat 1%nat 3%nat 2%nat 2 demo_importance) =
  outcome2 (importanceSampling5 0%nat 1%nat 4%nat 2%nat 2 demo_importance).
Proof.
  apply (importanceSampling5_ignores_f demo_importance demo_importance
           0%nat 1%nat 3%nat 4%nat 2%nat 2
           (zs [0; 1; 2]%Z) (zs [1; 1; 1]%Z) (zs [1; 2; 1]%Z));
    reflexivity.
Defined.

(** C5: a decreasing grid is accepted and a sample is returned; a grid
    longer than its density is rejected only by the interpolation, after
    two draws have been consumed; [n = 0] is accepted. *)
Lemma invalid_arguments_not_rejected :
  outcome (inversionSampling 0%nat 1%nat 1 demo_decreasing)
    = Ok [dyadic 1 0] /\
  status (inversionSampling 0%nat 1%nat 2 demo_mismatch) demo_mismatch
    = (Raise ValueError, 2%nat) /\
  status (inversionSampling 0%nat 1%nat 0 demo_inversion) demo_inversion
    = (Ok tt, 0%nat).
Proof. repeat split; vm_compute; reflexivity. Qed.

Lemma sampler_argument_checks_witness :
  status (inversionSampling 0%nat 1%nat (-1) demo_importance) demo_importance
    = (Raise ValueError, 0%nat) /\
  status (importanceSampling 0%nat 4%nat 2%nat (-1) demo_importance)
      demo_importance
    = (Raise ValueError, 0%nat).
Proof.
  apply (sampler_argument_checks (I := b64_ieee) demo_importance
           0%nat 1%nat 4%nat 2%nat (-1)
           (zs [0; 1; 2]%Z) (zs [1; 1; 1]%Z) (zs [7; 7; 7]%Z)
           (zs [1; 2; 1]%Z));
    reflexivity.
Defined.

Lemma importance_samplers_frame_witness :
  heap (snd (importanceSampling 0%nat 4%nat 2%nat 2 demo_importance)) !! 2%nat
    = Some (zs [1; 2; 1]%Z) /\
  heap (snd (importanceSampling5 0%nat 1%nat 4%nat 2%nat 2 demo_importance))
    !! 2%nat = Some (zs [1; 2; 1]%Z).
Proof.
  destruct (importance_samplers_frame demo_importance 0%nat 1%nat 4%nat 2%nat
              2 (zs [0; 1; 2]%Z) (zs [1; 1; 1]%Z) (zs [7; 7; 7]%Z)
              (zs [1; 2; 1]%Z) eq_refl eq_refl eq_refl eq_refl)
    as (H4 & H5 & _).
  split; [now apply H4|now apply H5].
Defined.

Lemma importanceSampling5_as_product_witness :
  outcome2 (importanceSampling5 0%nat 1%nat 4%nat 2%nat 2 demo_importance) =
  outcome2 (importanceSampling 0%nat 2%nat 2%nat 2 demo_importance).
Proof.
  apply (importanceSampling5_as_product demo_importance demo_importance
           0%nat 1%nat 4%nat 2%nat 0%nat 2%nat 2%nat 2
           (zs [0; 1; 2]%Z) (zs [1; 1; 1]%Z) (zs [1; 2; 1]%Z)
           (zs [1; 2; 1]%Z));
    reflexivity.
Defined.


Lemma estimate_pi_entries_witness :
  exists arr s',
    estimate_pi (Ar := b64) (dyadic 1 0) 2 demo_inversion
      = (Ok (count (length arr), arr), s') /\
    drawn s' = 4%nat.
Proof.
  destruct (estimate_pi_entries demo_inversion (dyadic 1 0) 2 eq_refl)
    as (arr & s' & Hrun & Hd & _); [discriminate|].
  exists arr, s'. split; [exact Hrun|exact Hd].
Defined.

Lemma lnProb_shapes_witness :
  (exists v,
     lnProb (zs [1; 2]%Z) (zs [0; 0]%Z)
       {| ncols := 2; rows := [zs [1; 0]%Z; zs [0; 1]%Z] |} = Ok v) /\
  lnProb (zs [1; 2]%Z) (zs [0; 0]%Z)
    {| ncols := 2; rows := [zs [1; 0]%Z] |} = Raise ValueError.
Proof.
  split.
  - apply (lnProb_shapes (zs [1; 2]%Z) (zs [0; 0]%Z)
             {| ncols := 2; rows := [zs [1; 0]%Z; zs [0; 1]%Z] |} eq_refl).
    split; reflexivity.
  - apply (lnProb_shapes (zs [1; 2]%Z) (zs [0; 0]%Z)
             {| ncols := 2; rows := [zs [1; 0]%Z] |} eq_refl).
    intros (_ & H). discriminate H.
Defined.

Lemma inversionSampling_one_point_witness :
  outcome (inversionSampling 0%nat 1%nat 2
             (mkstate (Ar := b64) [zs [5]%Z; zs [0]%Z] demo_draws))
  = Ok (repeat (dyadic 5 0) 2).
Proof.
  apply (inversionSampling_one_point (I := b64_ieee)
           (mkstate (Ar := b64) [zs [5]%Z; zs [0]%Z] demo_draws)
           0%nat 1%nat 2 (dyadic 5 0) (dyadic 0 0));
    [reflexivity|reflexivity|discriminate].
Defined.
